(** * Google Calendar Event Dashboard API: a shallow embedding of [index.js]

    The Express application keeps three pieces of state: the user store
    ([db.json], read and written through lowdb), the in-memory per-user
    cache ([cache]) and the credentials installed on the shared OAuth2
    client.  Every handler is an [async] function that reads the clock,
    may call the calendar/identity provider, and answers with a status and
    a body.  The handlers are embedded as computations in a state and
    exception monad over that state; the provider's answers and the clock
    reading of a request are inputs of the handler, and every provider call
    is recorded in a log so that "a provider call happened" is a statement
    about the state.

    Conventions.
    - A JavaScript value that may be [undefined] or [null] is an [option];
      both are falsy, and no code path distinguishes them.
    - [Date.now()] and [new Date(s)] are integers of milliseconds ([Z]);
      an invalid date is [None] (the arithmetic on it gives [NaN]).
    - A number that may be [NaN] is an [option Z].  Quotients that
      JavaScript takes in floating point are taken exactly here: the
      rounding of [Math.round] is on the exact quotient, and [totalHours]
      is the exact rational.
    - [cache] is a plain object used as a map from e-mail addresses to
      entries; it is a [gmap string CacheEntry].  The properties it
      inherits from [Object.prototype] are not e-mail addresses and are
      left out.
    - Reading and writing [db.json] is taken to succeed; [db.read()]
      yields the list of user records of the state. *)

From Stdlib Require Import ZArith QArith.
From stdpp Require Import gmap strings list.

Local Open Scope Z_scope.

(** ** JavaScript helpers *)

(** Truthiness of a possibly-undefined string: [undefined] and [""] are
    falsy. *)
Definition truthy (o : option string) : bool :=
  match o with
  | Some s => negb (String.eqb s "")
  | None => false
  end.

(** [a || b] on possibly-undefined strings. *)
Definition or_else (a b : option string) : option string :=
  if truthy a then a else b.

(** A truthy string, or nothing: the value a guard [if (a)] lets
    through. *)
Definition nonempty (a : option string) : option string :=
  if truthy a then a else None.

(** [a || 'literal']. *)
Definition or_default (a : option string) (d : string) : string :=
  default d (or_else a (Some d)).

(** [Math.round (n / d)] for an integer [n] and a positive integer [d]:
    the nearest integer, ties towards plus infinity.  The quotient is the
    exact one; the double that JavaScript rounds is its nearest
    representable number, which lies on the same side of every half-integer
    for the time spans a calendar holds. *)
Definition Math_round_div (n d : Z) : Z := (2 * n + d) `div` (2 * d).

(** [a + b] on numbers that may be [NaN]. *)
Definition js_add (a b : option Z) : option Z :=
  x ← a; y ← b; Some (x + y).

(** [a / d] on a number that may be [NaN], [d] a positive literal. *)
Definition js_div (a : option Z) (d : positive) : option Q :=
  (λ x, Qmake x d) <$> a.

(** ** Data model *)

(** Items of [res.data.items], as far as the code reads them. *)
Module Raw.
Record time := { dateTime : option string; date : option string }.
Record attendee := { email : option string }.
Record event := {
  id : string;
  status : option string;
  summary : option string;
  start : option time;
  end_ : option time;
  location : option string;
  attendees : option (list attendee)
}.
End Raw.

(** The processed event built by the [map] callback of
    [fetchProcessedEvents]. *)
Module Event.
Record t := {
  id : string;
  title : string;
  start : string;
  end_ : string;
  durationMinutes : option Z;
  location : string;
  attendees : list (option string)
}.
End Event.

(** The object built by [GET /events/summary]. *)
Module Summary.
Record t := {
  totalEvents : nat;
  totalHours : option Q;
  firstEventStart : option string;
  lastEventEnd : option string
}.
End Summary.

(** The credential bundle returned by [oAuth2Client.getToken]. *)
Record Tokens := {
  id_token : option string;
  access_token : option string;
  refresh_token : option string
}.

(** An element of [db.data.users]. *)
Module User.
Record t := { email : string; tokens : option Tokens }.
End User.

(** [cache[email]]. *)
Record CacheEntry := {
  events : option (list Event.t);
  summary : option Summary.t;
  expiry : Z
}.

Definition CACHE_TTL_MS : Z := 60 * 1000.

(** ** Event normalization ([fetchProcessedEvents], the pure part) *)

Section Normalization.

(** [new Date(s)] as milliseconds since the epoch; [None] for an invalid
    date. *)
Variable Date_parse : string → option Z.

(** The [filter] callback. *)
Definition keep (e : Raw.event) : bool :=
  negb (bool_decide (Raw.status e = Some "cancelled"))
  && match Raw.start e, Raw.end_ e with
     | Some s, Some en =>
         truthy (or_else (Raw.dateTime s) (Raw.date s))
         && truthy (or_else (Raw.dateTime en) (Raw.date en))
     | _, _ => false
     end.

(** [Math.round((new Date(end) - new Date(start)) / (1000 * 60))]. *)
Definition durationOf (start end_ : string) : option Z :=
  match Date_parse end_, Date_parse start with
  | Some e, Some s => Some (Math_round_div (e - s) (1000 * 60))
  | _, _ => None
  end.

(** The [map] callback.  It is partial: [None] stands for the callback
    dereferencing an [undefined] [e.start]/[e.end] or producing an
    [undefined] timestamp, which the filter excludes (see
    [toProcessed_keep]). *)
Definition toProcessed (e : Raw.event) : option Event.t :=
  s ← Raw.start e;
  en ← Raw.end_ e;
  start ← or_else (Raw.dateTime s) (Raw.date s);
  end_ ← or_else (Raw.dateTime en) (Raw.date en);
  Some {| Event.id := Raw.id e;
          Event.title := or_default (Raw.summary e) "No Title";
          Event.start := start;
          Event.end_ := end_;
          Event.durationMinutes := durationOf start end_;
          Event.location := or_default (Raw.location e) "";
          Event.attendees := Raw.email <$> default [] (Raw.attendees e) |}.

(** [events.filter(...).map(...)]. *)
Definition processEvents (items : list Raw.event) : option (list Event.t) :=
  mapM toProcessed (filter (λ e, keep e) items).

End Normalization.

(** ** The summary of [GET /events/summary] *)

Definition summarize (evs : list Event.t) : Summary.t :=
  if bool_decide (length evs = 0%nat) then
    {| Summary.totalEvents := 0;
       Summary.totalHours := Some 0%Q;
       Summary.firstEventStart := None;
       Summary.lastEventEnd := None |}
  else
    {| Summary.totalEvents := length evs;
       Summary.totalHours :=
         js_div (fold_left (λ sum e, js_add sum (Event.durationMinutes e))
                           evs (Some 0)) 60;
       Summary.firstEventStart := Event.start <$> evs !! 0%nat;
       Summary.lastEventEnd := Event.end_ <$> evs !! (length evs - 1)%nat |}.

(** ** The user store ([db.data.users]) *)

(** [db.data.users.find(u => u.email === email)]. *)
Definition findUser (email : string) (users : list User.t)
  : option (nat * User.t) :=
  list_find (λ u, User.email u = email) users.

(** The body of [saveUser] between [db.read()] and [db.write()]: the found
    record is updated in place, otherwise a record is pushed. *)
Definition upsertUser (email : string) (tokens : Tokens)
    (users : list User.t) : list User.t :=
  match findUser email users with
  | Some (i, u) =>
      <[i := {| User.email := User.email u; User.tokens := Some tokens |}]> users
  | None => users ++ [{| User.email := email; User.tokens := Some tokens |}]
  end.

(** ** State, provider and the handler monad *)

(** The calls a handler makes to the provider (Google's token, identity and
    calendar endpoints), in the order they are made. *)
Inductive Call :=
| CallGetToken (code : string)
| CallVerifyIdToken (idToken : string)
| CallUserinfo
| CallTokenInfo (accessToken : string)
| CallEventsList.

(** The result of an [await]: a value, or a thrown error with its
    [message]. *)
Inductive Outcome (A : Type) :=
| Returned (a : A)
| Thrown (message : string).
Arguments Returned {A} a.
Arguments Thrown {A} message.

(** What the provider answers during one request.  The e-mail fields are
    [payload.email], [data.email] and [tokenInfo.email]; the calendar
    answer is [res.data.items]. *)
Record Provider := {
  getToken : string → Outcome Tokens;
  verifyIdToken : string → Outcome (option string);
  userinfo_get : option Tokens → Outcome (option string);
  getTokenInfo : string → Outcome (option string);
  events_list : option Tokens → Outcome (option (list Raw.event))
}.

(** The state of the process: the user store, the cache, the credentials
    set on [oAuth2Client], and the log of provider calls. *)
Record World := {
  users : list User.t;
  cache : gmap string CacheEntry;
  credentials : option Tokens;
  calls : list Call
}.

Definition M (A : Type) : Type := World → Outcome A * World.

(** [M] is a monad in stdpp's sense, so that [x ← m; k] sequences two
    awaited steps and [mret] returns. *)
Global Instance M_ret : MRet M := λ A a w, (Returned a, w).

Global Instance M_bind : MBind M := λ A B k m w,
  match m w with
  | (Returned a, w') => k a w'
  | (Thrown e, w') => (Thrown e, w')
  end.

Definition throw {A} (message : string) : M A := λ w, (Thrown message, w).

(** [try { m } catch (err) { h err.message }]: the state changes made
    before the throw stay. *)
Definition try_catch {A} (m : M A) (h : string → M A) : M A :=
  λ w, match m w with
       | (Returned a, w') => (Returned a, w')
       | (Thrown e, w') => h e w'
       end.

(** State updates. *)
Definition logCall (c : Call) (w : World) : World :=
  {| users := users w; cache := cache w;
     credentials := credentials w; calls := calls w ++ [c] |}.

Definition withUsers (us : list User.t) (w : World) : World :=
  {| users := us; cache := cache w;
     credentials := credentials w; calls := calls w |}.

Definition withCache (c : gmap string CacheEntry) (w : World) : World :=
  {| users := users w; cache := c;
     credentials := credentials w; calls := calls w |}.

Definition withCredentials (t : Tokens) (w : World) : World :=
  {| users := users w; cache := cache w;
     credentials := Some t; calls := calls w |}.

(** An awaited provider call: it is logged, then returns or throws. *)
Definition call {A} (c : Call) (answer : Outcome A) : M A :=
  λ w, (answer, logCall c w).

Definition getUsers : M (list User.t) := λ w, (Returned (users w), w).

Definition setUsers (us : list User.t) : M unit :=
  λ w, (Returned tt, withUsers us w).

Definition getCache : M (gmap string CacheEntry) :=
  λ w, (Returned (cache w), w).

Definition setCache (c : gmap string CacheEntry) : M unit :=
  λ w, (Returned tt, withCache c w).

Definition getCredentials : M (option Tokens) :=
  λ w, (Returned (credentials w), w).

(** [oAuth2Client.setCredentials(tokens)]. *)
Definition setCredentials (t : Tokens) : M unit :=
  λ w, (Returned tt, withCredentials t w).

(** ** HTTP requests and responses *)

Record Request := {
  header_X_User_Email : option string;
  params_id : string;
  query_code : option string
}.

Inductive Body :=
| Text (s : string)
| JsonEvents (evs : list Event.t)
| JsonSummary (s : Summary.t)
| JsonEvent (e : Event.t)
| JsonError (error : string) (details : option string).

Record Response := { status : nat; body : Body }.

(** [res.send(s)] and [res.json(v)] answer 200 unless [res.status(n)] was
    called. *)
Definition send (n : nat) (b : Body) : M Response :=
  mret {| status := n; body := b |}.

(** ** Store access, cache helpers and middleware *)

(** [getUser]: re-read the store, then [find]. *)
Definition getUser (email : string) : M (option User.t) :=
  us ← getUsers;
  mret (snd <$> findUser email us).

(** [saveUser]: re-read the store, upsert, write it back. *)
Definition saveUser (email : string) (tokens : Tokens) : M unit :=
  us ← getUsers;
  setUsers (upsertUser email tokens us).

(** [invalidateCache]. *)
Definition invalidatedEntry : CacheEntry :=
  {| events := None; summary := None; expiry := 0 |}.

Definition invalidateCache (email : string) : M unit :=
  c ← getCache;
  setCache (<[email := invalidatedEntry]> c).

(** [cache[email] || {}].  The fresh object has no [expiry] yet; both
    writers assign it before the entry can be read again, so the
    placeholder is never observed. *)
Definition entryOrEmpty (c : gmap string CacheEntry) (email : string)
  : CacheEntry :=
  default {| events := None; summary := None; expiry := 0 |} (c !! email).

(** [cache[email] && cache[email].events && cache[email].expiry > now],
    giving the cached list on a hit. *)
Definition cachedEvents (c : gmap string CacheEntry) (email : string)
    (now : Z) : option (list Event.t) :=
  entry ← c !! email;
  evs ← events entry;
  if bool_decide (expiry entry > now) then Some evs else None.

(** [cache[email] && cache[email].summary && cache[email].expiry > now]. *)
Definition cachedSummary (c : gmap string CacheEntry) (email : string)
    (now : Z) : option Summary.t :=
  entry ← c !! email;
  s ← summary entry;
  if bool_decide (expiry entry > now) then Some s else None.

(** The middleware [ensureAuthenticated]; [next] is the route's handler,
    which receives [req.userEmail]. *)
Definition ensureAuthenticated (req : Request) (next : string → M Response)
  : M Response :=
  match nonempty (header_X_User_Email req) with
  | None => send 400 (Text "Missing X-User-Email header")
  | Some email =>
      user ← getUser email;
      match user ≫= User.tokens with
      | None => send 401 (Text "Not authenticated. Go to /auth to login.")
      | Some t => setCredentials t;; next email
      end
  end.

(** ** Route handlers *)

Section Handlers.

Variable Date_parse : string → option Z.
(** The provider's behaviour during the request. *)
Variable P : Provider.

(** [fetchProcessedEvents]: one call to [calendar.events.list] with the
    client's current credentials; the items are filtered and mapped; an
    error is logged and thrown again. *)
Definition fetchProcessedEvents (email : string) : M (list Event.t) :=
  try_catch
    (creds ← getCredentials;
     items ← call CallEventsList (events_list P creds);
     match processEvents Date_parse (default [] items) with
     | Some processedEvents => mret processedEvents
     | None => throw "TypeError"
     end)
    (λ message, throw message).

(** [GET /events]; [now] is the value of [Date.now()]. *)
Definition getEvents (now : Z) (req : Request) : M Response :=
  ensureAuthenticated req (λ email,
    try_catch
      (c ← getCache;
       match cachedEvents c email now with
       | Some evs => send 200 (JsonEvents evs)
       | None =>
           evs ← fetchProcessedEvents email;
           c ← getCache;
           let entry := entryOrEmpty c email in
           setCache (<[email := {| events := Some evs;
                                   summary := summary entry;
                                   expiry := now + CACHE_TTL_MS |}]> c);;
           send 200 (JsonEvents evs)
       end)
      (λ message,
         send 500 (JsonError "Failed to fetch events" (Some message)))).

(** [GET /events/summary]. *)
Definition getEventsSummary (now : Z) (req : Request) : M Response :=
  ensureAuthenticated req (λ email,
    try_catch
      (c ← getCache;
       match cachedSummary c email now with
       | Some s => send 200 (JsonSummary s)
       | None =>
           evs ← fetchProcessedEvents email;
           let s := summarize evs in
           c ← getCache;
           let entry := entryOrEmpty c email in
           setCache (<[email := {| events := events entry;
                                   summary := Some s;
                                   expiry := now + CACHE_TTL_MS |}]> c);;
           send 200 (JsonSummary s)
       end)
      (λ message,
         send 500 (JsonError "Failed to fetch summary" (Some message)))).

(** [GET /events/:id]. *)
Definition getEventById (req : Request) : M Response :=
  ensureAuthenticated req (λ email,
    try_catch
      (evs ← fetchProcessedEvents email;
       match List.find (λ e, bool_decide (Event.id e = params_id req)) evs
       with
       | Some e => send 200 (JsonEvent e)
       | None => send 404 (JsonError "Event not found" None)
       end)
      (λ message,
         send 500 (JsonError "Failed to fetch event" (Some message)))).

(** One step of the e-mail fallback chain inside its own [try]/[catch]:
    on success [email] is assigned the answer, on a throw it keeps its
    value. *)
Definition tryEmail (email : option string) (c : Call)
    (answer : Outcome (option string)) : M (option string) :=
  try_catch (call c answer) (λ _, mret email).

(** [GET /oauth2callback]. *)
Definition oauth2callback (req : Request) : M Response :=
  match nonempty (query_code req) with
  | None => send 400 (Text "No code provided")
  | Some code =>
      try_catch
        (tokens ← call (CallGetToken code) (getToken P code);
         setCredentials tokens;;
         let email : option string := None in
         (* Method 1: the ID token *)
         email ← match nonempty (id_token tokens) with
                 | Some idt =>
                     tryEmail email (CallVerifyIdToken idt)
                              (verifyIdToken P idt)
                 | None => mret email
                 end;
         (* Method 2: the userinfo API *)
         email ← match nonempty email, nonempty (access_token tokens) with
                 | None, Some _ =>
                     creds ← getCredentials;
                     tryEmail email CallUserinfo (userinfo_get P creds)
                 | _, _ => mret email
                 end;
         (* Method 3: token info *)
         email ← match nonempty email, nonempty (access_token tokens) with
                 | None, Some at_ =>
                     tryEmail email (CallTokenInfo at_) (getTokenInfo P at_)
                 | _, _ => mret email
                 end;
         match nonempty email with
         | None =>
             send 400 (Text "Could not get user email from any method. Please check OAuth2 scopes.")
         | Some e =>
             saveUser e tokens;;
             invalidateCache e;;
             send 200 (Text ("Authentication successful for " +:+ e +:+
               "! Use your email in the X-User-Email header for API requests."))
         end)
        (λ message,
           send 500 (Text ("Error retrieving access token: " +:+ message)))
  end.

End Handlers.

(** ** Vocabulary of the specification *)

(** The provider marks the event as cancelled. *)
Definition cancelled (e : Raw.event) : Prop :=
  Raw.status e = Some "cancelled".

(** A start or end is missing its timestamp: there is no time object, or it
    carries neither a [dateTime] nor a [date]. *)
Definition missing (t : option Raw.time) : Prop :=
  match t with
  | None => True
  | Some ts =>
      (Raw.dateTime ts = None ∨ Raw.dateTime ts = Some "")
      ∧ (Raw.date ts = None ∨ Raw.date ts = Some "")
  end.

Definition excluded (e : Raw.event) : Prop :=
  cancelled e ∨ missing (Raw.start e) ∨ missing (Raw.end_ e).

Global Instance missing_dec (t : option Raw.time) : Decision (missing t).
Proof. destruct t; apply _. Defined.

Global Instance excluded_dec (e : Raw.event) : Decision (excluded e).
Proof. apply _. Defined.

(** [s] is the timestamp of [ts], the timed [dateTime] taking precedence
    over the all-day [date]. *)
Definition preferred (ts : Raw.time) (s : string) : Prop :=
  match Raw.dateTime ts with
  | Some dt => if decide (dt = "") then Raw.date ts = Some s else s = dt
  | None => Raw.date ts = Some s
  end.

(** [p] is the normalized form of the raw event [e]: its timestamps are
    the preferred ones and its duration is the difference of the parsed
    timestamps in minutes, rounded to the nearest integer ([NaN] when a
    timestamp is not a date). *)
Definition normalizes (Date_parse : string → option Z)
    (e : Raw.event) (p : Event.t) : Prop :=
  ∃ ts te,
    Raw.start e = Some ts ∧ Raw.end_ e = Some te
    ∧ preferred ts (Event.start p) ∧ preferred te (Event.end_ p)
    ∧ Event.id p = Raw.id e
    ∧ match Date_parse (Event.start p), Date_parse (Event.end_ p) with
      | Some a, Some b =>
          ∃ m, Event.durationMinutes p = Some m
               ∧ 60000 * (2 * m - 1) ≤ 2 * (b - a) < 60000 * (2 * m + 1)
      | _, _ => Event.durationMinutes p = None
      end.

(** The credentials the store holds for an e-mail: those of the first
    record with that e-mail, as [ensureAuthenticated] reads them. *)
Definition storedTokens (w : World) (email : string) : option Tokens :=
  (snd <$> findUser email (users w)) ≫= User.tokens.

(** The request carries the e-mail [email] in its [X-User-Email] header and
    the store holds the credentials [t] for it. *)
Definition authenticates (req : Request) (w : World) (email : string)
    (t : Tokens) : Prop :=
  nonempty (header_X_User_Email req) = Some email
  ∧ storedTokens w email = Some t.

(** The three read routes, [GET /events], [GET /events/summary] and
    [GET /events/:id], and Express's dispatch to their handlers; [now] is
    the clock reading of the request. *)
Inductive ReadEndpoint := Events | EventsSummary | EventById.

Definition readEndpoint (Date_parse : string → option Z) (P : Provider)
    (ep : ReadEndpoint) (now : Z) (req : Request) : M Response :=
  match ep with
  | Events => getEvents Date_parse P now req
  | EventsSummary => getEventsSummary Date_parse P now req
  | EventById => getEventById Date_parse P req
  end.

(** The identity-resolution chain in the specification's words.  A step
    yields an e-mail when its call returns a non-empty one. *)
Definition answered (a : Outcome (option string)) : option string :=
  match a with
  | Returned e => nonempty e
  | Thrown _ => None
  end.

(** Step 1: the verified identity token, if the bundle has one. *)
Definition viaIdToken (P : Provider) (tokens : Tokens) : option string :=
  idt ← nonempty (id_token tokens); answered (verifyIdToken P idt).

(** Step 2: the user-info endpoint, if the bundle has an access token. *)
Definition viaUserinfo (P : Provider) (tokens : Tokens) : option string :=
  _ ← nonempty (access_token tokens); answered (userinfo_get P (Some tokens)).

(** Step 3: token introspection, if the bundle has an access token. *)
Definition viaTokenInfo (P : Provider) (tokens : Tokens) : option string :=
  at_ ← nonempty (access_token tokens); answered (getTokenInfo P at_).

(** The e-mail of the first step, in order, that yields one. *)
Definition resolvedEmail (P : Provider) (tokens : Tokens) : option string :=
  match viaIdToken P tokens with
  | Some e => Some e
  | None =>
      match viaUserinfo P tokens with
      | Some e => Some e
      | None => viaTokenInfo P tokens
      end
  end.

(** The calls of the chain: each step is attempted only if its token is
    present and no earlier step yielded an e-mail. *)
Definition chainCalls (P : Provider) (tokens : Tokens) : list Call :=
  match nonempty (id_token tokens) with
  | Some idt => [CallVerifyIdToken idt]
  | None => []
  end
  ++ match viaIdToken P tokens, nonempty (access_token tokens) with
     | None, Some _ => [CallUserinfo]
     | _, _ => []
     end
  ++ match viaIdToken P tokens, viaUserinfo P tokens,
           nonempty (access_token tokens) with
     | None, None, Some at_ => [CallTokenInfo at_]
     | _, _, _ => []
     end.

(** ** Example data *)

Definition demoDate (s : string) : option Z :=
  if String.eqb s "2025-07-25T15:00:00Z" then Some 1753455600000
  else if String.eqb s "2025-07-25T16:00:00Z" then Some 1753459200000
  else if String.eqb s "2025-07-25T10:00:00Z" then Some 1753437600000
  else if String.eqb s "2025-07-25T10:20:30Z" then Some 1753438830000
  else if String.eqb s "2025-07-26" then Some 1753488000000
  else if String.eqb s "2025-07-27" then Some 1753574400000
  else None.

Definition timed (s : string) : option Raw.time :=
  Some {| Raw.dateTime := Some s; Raw.date := None |}.

Definition allDay (s : string) : option Raw.time :=
  Some {| Raw.dateTime := None; Raw.date := Some s |}.

Definition rawEvent (id : string) (status : string)
    (start end_ : option Raw.time) : Raw.event :=
  {| Raw.id := id; Raw.status := Some status; Raw.summary := None;
     Raw.start := start; Raw.end_ := end_; Raw.location := None;
     Raw.attendees := None |}.

Definition demoItems : list Raw.event :=
  [ rawEvent "standup" "confirmed"
      (timed "2025-07-25T10:00:00Z") (timed "2025-07-25T10:20:30Z");
    rawEvent "dropped" "cancelled"
      (timed "2025-07-25T15:00:00Z") (timed "2025-07-25T16:00:00Z");
    rawEvent "meeting" "confirmed"
      (timed "2025-07-25T15:00:00Z") (timed "2025-07-25T16:00:00Z");
    rawEvent "broken" "confirmed" (timed "2025-07-25T15:00:00Z") None;
    rawEvent "holiday" "confirmed" (allDay "2025-07-26") (allDay "2025-07-27") ].

Definition demoEvent (id start end_ : string) (minutes : Z) : Event.t :=
  {| Event.id := id; Event.title := "No Title"; Event.start := start;
     Event.end_ := end_; Event.durationMinutes := Some minutes;
     Event.location := ""; Event.attendees := [] |}.

Definition demoEvents : list Event.t :=
  [ demoEvent "standup" "2025-07-25T10:00:00Z" "2025-07-25T10:20:30Z" 21;
    demoEvent "meeting" "2025-07-25T15:00:00Z" "2025-07-25T16:00:00Z" 60;
    demoEvent "holiday" "2025-07-26" "2025-07-27" 1440 ].

Definition demoTokens : Tokens :=
  {| id_token := Some "id-token"; access_token := Some "access-token";
     refresh_token := None |}.

Definition demoUsers : list User.t :=
  [ {| User.email := "ann@example.com"; User.tokens := Some demoTokens |};
    {| User.email := "bob@example.com"; User.tokens := None |} ].

Definition demoWorld : World :=
  {| users := demoUsers; cache := ∅; credentials := None; calls := [] |}.

(** A provider that lists [items] and resolves the identity token to
    Ann's e-mail. *)
Definition listing (items : list Raw.event) : Provider :=
  {| getToken := λ _, Returned demoTokens;
     verifyIdToken := λ _, Returned (Some "ann@example.com");
     userinfo_get := λ _, Returned (Some "ann@example.com");
     getTokenInfo := λ _, Returned (Some "ann@example.com");
     events_list := λ _, Returned (Some items) |}.

(** A provider whose every endpoint but the token exchange fails. *)
Definition failing : Provider :=
  {| getToken := λ _, Returned demoTokens;
     verifyIdToken := λ _, Thrown "invalid token";
     userinfo_get := λ _, Thrown "insufficient scope";
     getTokenInfo := λ _, Thrown "invalid token";
     events_list := λ _, Thrown "backend error" |}.

Definition demoRequest (email : option string) (id : string) : Request :=
  {| header_X_User_Email := email; params_id := id; query_code := None |}.

Definition annRequest : Request :=
  demoRequest (Some "ann@example.com") "meeting".

Definition callbackRequest : Request :=
  {| header_X_User_Email := None; params_id := ""; query_code := Some "4/code" |}.

(** A state in which Ann's entry holds an event list that expired at
    clock reading 1000. *)
Definition staleWorld : World :=
  {| users := demoUsers;
     cache := {[ "ann@example.com" :=
                   {| events := Some demoEvents; summary := None;
                      expiry := 1000 |} ]};
     credentials := None;
     calls := [] |}.

(** A state in which Ann's entry holds a summary that expired at clock
    reading 1000. *)
Definition staleSummaryWorld : World :=
  {| users := demoUsers;
     cache := {[ "ann@example.com" :=
                   {| events := None; summary := Some (summarize demoEvents);
                      expiry := 1000 |} ]};
     credentials := None;
     calls := [] |}.

(** ** Sequences of requests *)

(** A request to one of the routes that touch the state, with the
    provider's behaviour while it is served. *)
Inductive Action :=
| ReadRequest (P : Provider) (ep : ReadEndpoint) (now : Z) (req : Request)
| CallbackRequest (P : Provider) (req : Request).

(** The state after serving one request, and after serving a sequence of
    requests one after the other. *)
Definition perform (Date_parse : string → option Z) (a : Action) (w : World)
  : World :=
  match a with
  | ReadRequest P ep now req => snd (readEndpoint Date_parse P ep now req w)
  | CallbackRequest P req => snd (oauth2callback P req w)
  end.

Definition serve (Date_parse : string → option Z) (w : World)
    (actions : list Action) : World :=
  foldl (λ w a, perform Date_parse a w) w actions.

(** The state of a first start: the default [{ users: [] }] of the store
    and the empty [cache]. *)
Definition freshWorld : World :=
  {| users := []; cache := ∅; credentials := None; calls := [] |}.

(** Every e-mail occurs once in the store, every record has a non-empty
    e-mail and holds tokens, and every cache entry belongs to a stored
    user. *)
Definition storeInvariant (w : World) : Prop :=
  NoDup (User.email <$> users w)
  ∧ Forall (λ u, User.email u ≠ "" ∧ is_Some (User.tokens u)) (users w)
  ∧ ∀ email, is_Some (cache w !! email) → email ∈ User.email <$> users w.

(** * Properties *)

(** ** JavaScript helpers *)

Lemma truthy_false (o : option string) :
  truthy o = false ↔ o = None ∨ o = Some "".
Proof.
  destruct o as [s|]; simpl.
  - rewrite negb_false_iff, String.eqb_eq. split.
    + intros ->. by right.
    + intros [?|[= ->]]; done.
  - split; [by left | done].
Qed.

Lemma truthy_true (o : option string) :
  truthy o = true ↔ ∃ s, o = Some s ∧ s ≠ "".
Proof.
  destruct o as [s|]; simpl.
  - rewrite negb_true_iff, String.eqb_neq. split.
    + intros H. by exists s.
    + by intros (s' & [= <-] & H).
  - split; [done | by intros (? & ? & ?)].
Qed.

Lemma nonempty_Some (o : option string) (s : string) :
  nonempty o = Some s ↔ o = Some s ∧ s ≠ "".
Proof.
  unfold nonempty. destruct (truthy o) eqn:E.
  - apply truthy_true in E as (s' & -> & Hs'). split.
    + by intros [= <-].
    + by intros [[= <-] _].
  - apply truthy_false in E. split; [done|].
    intros [-> Hs]. by destruct E as [|[= ->]].
Qed.

Lemma nonempty_None (o : option string) :
  nonempty o = None ↔ o = None ∨ o = Some "".
Proof.
  unfold nonempty. destruct (truthy o) eqn:E.
  - apply truthy_true in E as (s' & -> & Hs'). split; [done|].
    by intros [|[= ->]].
  - by apply truthy_false in E.
Qed.

(** [Math.round] returns the integer [m] with [m - 1/2 <= n/d < m + 1/2]. *)
Lemma Math_round_div_spec (n d : Z) :
  0 < d →
  d * (2 * Math_round_div n d - 1) ≤ 2 * n < d * (2 * Math_round_div n d + 1).
Proof.
  intros Hd. unfold Math_round_div.
  pose proof (Z.div_mod (2 * n + d) (2 * d) ltac:(lia)) as Hdm.
  pose proof (Z.mod_pos_bound (2 * n + d) (2 * d) ltac:(lia)) as Hb.
  lia.
Qed.

Lemma Math_round_div_unique (n d m : Z) :
  0 < d → d * (2 * m - 1) ≤ 2 * n < d * (2 * m + 1) → Math_round_div n d = m.
Proof.
  intros Hd Hm. pose proof (Math_round_div_spec n d Hd) as Hr. nia.
Qed.

(** ** Normalization *)

Section NormalizationProperties.

Variable Date_parse : string → option Z.

Lemma or_else_truthy (a b : option string) :
  truthy (or_else a b) = true ↔ truthy a = true ∨ truthy b = true.
Proof.
  unfold or_else. destruct (truthy a) eqn:E; [rewrite E|]; intuition congruence.
Qed.

Lemma missing_Some (ts : Raw.time) :
  missing (Some ts)
  ↔ truthy (or_else (Raw.dateTime ts) (Raw.date ts)) = false.
Proof.
  simpl. rewrite <- !truthy_false.
  destruct (truthy (or_else _ _)) eqn:E.
  - apply or_else_truthy in E. split; [|done]. intros [H1 H2].
    destruct E; congruence.
  - split; [done|]. intros _.
    destruct (truthy (Raw.dateTime ts)) eqn:E1;
      destruct (truthy (Raw.date ts)) eqn:E2; try done;
      exfalso; (assert (truthy (or_else (Raw.dateTime ts) (Raw.date ts)) = true)
                 as E' by (apply or_else_truthy; auto)); congruence.
Qed.

(** The filter keeps exactly the events that are neither cancelled nor
    missing a timestamp. *)
Lemma keep_excluded (e : Raw.event) : keep e ↔ ¬ excluded e.
Proof.
  unfold keep, excluded, cancelled.
  rewrite andb_True, negb_True, bool_decide_spec.
  destruct (Raw.start e) as [ts|] eqn:Es; [destruct (Raw.end_ e) as [te|] eqn:Ee|].
  - rewrite andb_True, !missing_Some, !Is_true_true.
    destruct (truthy (or_else (Raw.dateTime ts) _));
      destruct (truthy (or_else (Raw.dateTime te) _)); intuition congruence.
  - simpl. tauto.
  - simpl. tauto.
Qed.

Lemma or_else_preferred (ts : Raw.time) (s : string) :
  truthy (or_else (Raw.dateTime ts) (Raw.date ts)) = true →
  or_else (Raw.dateTime ts) (Raw.date ts) = Some s →
  preferred ts s.
Proof.
  unfold or_else, preferred.
  destruct (Raw.dateTime ts) as [dt|] eqn:Edt; simpl.
  - destruct (String.eqb_spec dt "") as [->|Hne]; simpl.
    + intros _ H. exact H.
    + intros _ [= ->]. by destruct (decide (s = "")).
  - done.
Qed.

Lemma durationOf_spec (start end_ : string) :
  match Date_parse start, Date_parse end_ with
  | Some a, Some b =>
      ∃ m, durationOf Date_parse start end_ = Some m
           ∧ 60000 * (2 * m - 1) ≤ 2 * (b - a) < 60000 * (2 * m + 1)
  | _, _ => durationOf Date_parse start end_ = None
  end.
Proof.
  unfold durationOf.
  destruct (Date_parse start) as [a|], (Date_parse end_) as [b|]; try done.
  eexists; split; [done|].
  apply (Math_round_div_spec (b - a) (1000 * 60)). lia.
Qed.

(** On an event that passes the filter the [map] callback does not
    fail, and it builds the normalized form. *)
Lemma toProcessed_keep (e : Raw.event) :
  keep e → ∃ p, toProcessed Date_parse e = Some p ∧ normalizes Date_parse e p.
Proof.
  unfold keep, toProcessed. rewrite andb_True. intros [_ H].
  destruct (Raw.start e) as [ts|] eqn:Es; [|done].
  destruct (Raw.end_ e) as [te|] eqn:Ee; [|done].
  apply andb_True in H as [Hs He]. apply Is_true_true in Hs, He.
  pose proof Hs as Hs'. pose proof He as He'.
  apply truthy_true in Hs' as (s & Hs' & _).
  apply truthy_true in He' as (t & He' & _).
  simpl. rewrite Hs', He'. simpl.
  eexists; split; [done|]. exists ts, te. simpl.
  repeat split; try done.
  - by apply or_else_preferred.
  - by apply or_else_preferred.
  - apply durationOf_spec.
Qed.

Lemma mapM_toProcessed_kept (l : list Raw.event) :
  Forall (λ e, keep e) l →
  ∃ out, mapM (toProcessed Date_parse) l = Some out
         ∧ Forall2 (normalizes Date_parse) l out.
Proof.
  induction 1 as [|e l He _ IH].
  - by exists [].
  - destruct IH as (out & Hout & HF).
    destruct (toProcessed_keep e He) as (p & Hp & Hn).
    exists (p :: out). split; [|by constructor].
    simpl. rewrite Hp. simpl. by rewrite Hout.
Qed.

(** The [map] after the [filter] never throws. *)
Lemma processEvents_succeeds (items : list Raw.event) :
  ∃ out, processEvents Date_parse items = Some out.
Proof.
  destruct (mapM_toProcessed_kept (filter (λ e, keep e) items))
    as (out & Hout & _); [|by exists out].
  apply Forall_forall. intros e He. by apply list_elem_of_filter in He as [He _].
Qed.

(** C2. Whatever the provider lists, normalization succeeds; its output
    is, in order, one normalized event for each listed event that is
    neither cancelled nor missing a start or end timestamp (so every
    cancelled or malformed event is excluded); each output event takes
    the [dateTime] of its source in preference to the [date], and its
    [durationMinutes] is [(end - start) / 60000] rounded to the nearest
    integer. *)
Theorem processEvents_normalizes (items : list Raw.event) :
  ∃ out,
    processEvents Date_parse items = Some out
    ∧ Forall2 (normalizes Date_parse) (filter (λ e, ¬ excluded e) items) out.
Proof.
  unfold processEvents.
  rewrite (list_filter_iff (λ e, keep e) (λ e, ¬ excluded e))
    by apply keep_excluded.
  apply mapM_toProcessed_kept, Forall_forall. intros e He.
  apply list_elem_of_filter in He as [He _]. by apply keep_excluded.
Qed.

End NormalizationProperties.

(** ** Summary *)

Lemma fold_minutes_numbers (evs : list Event.t) (ms : list Z) (acc : Z) :
  Event.durationMinutes <$> evs = Some <$> ms →
  fold_left (λ sum e, js_add sum (Event.durationMinutes e)) evs (Some acc)
  = Some (acc + foldr Z.add 0 ms).
Proof.
  revert ms acc. induction evs as [|e evs IH]; intros [|m ms] acc; try done.
  - intros _. simpl. f_equal. lia.
  - intros [= Hm Hms]. simpl. rewrite Hm. simpl.
    rewrite (IH ms) by done. f_equal. lia.
Qed.

Lemma fold_minutes_NaN (evs : list Event.t) (acc : option Z) :
  acc = None ∨ (∃ e, e ∈ evs ∧ Event.durationMinutes e = None) →
  fold_left (λ sum e, js_add sum (Event.durationMinutes e)) evs acc = None.
Proof.
  revert acc. induction evs as [|e evs IH]; intros acc H.
  - destruct H as [->|(e & He & _)]; [done|]. by apply elem_of_nil in He.
  - simpl. apply IH. destruct H as [->|(e' & He' & Hn)]; [by left|].
    apply elem_of_cons in He' as [->|He'].
    + left. rewrite Hn. by destruct acc.
    + right. by exists e'.
Qed.

Lemma Qmake_60 (s : Z) : Qeq (Qmake s 60) (inject_Z s / 60)%Q.
Proof. unfold Qeq, Qdiv, Qmult, Qinv, inject_Z. simpl. lia. Qed.

(** C4. The summary counts the events of the list, adds up their
    [durationMinutes] and divides by 60 without rounding ([NaN] as soon as
    one duration is [NaN]), and takes [firstEventStart] and [lastEventEnd]
    from the first and the last element of the list as it stands; the
    empty list gives [{0, 0, null, null}]. *)
Theorem summarize_spec (evs : list Event.t) :
  Summary.totalEvents (summarize evs) = length evs
  ∧ (∀ ms : list Z, Event.durationMinutes <$> evs = Some <$> ms →
       ∃ q, Summary.totalHours (summarize evs) = Some q
            ∧ Qeq q (inject_Z (foldr Z.add 0%Z ms) / 60)%Q)
  ∧ ((∃ e, e ∈ evs ∧ Event.durationMinutes e = None) →
       Summary.totalHours (summarize evs) = None)
  ∧ Summary.firstEventStart (summarize evs) = Event.start <$> head evs
  ∧ Summary.lastEventEnd (summarize evs) = Event.end_ <$> last evs
  ∧ (evs = [] →
       summarize evs = {| Summary.totalEvents := 0;
                          Summary.totalHours := Some 0%Q;
                          Summary.firstEventStart := None;
                          Summary.lastEventEnd := None |}).
Proof.
  unfold summarize. destruct evs as [|e evs]; simpl.
  - repeat split; try done.
    + intros [|??] H; [|done]. by exists 0%Q.
    + intros (e & He & _). by apply elem_of_nil in He.
  - repeat split; try done.
    + intros ms Hms.
      pose proof (fold_minutes_numbers (e :: evs) ms 0 Hms) as Hf.
      simpl in Hf. rewrite Hf. simpl. eexists; split; [done|].
      rewrite Z.add_0_l. apply Qmake_60.
    + intros H.
      pose proof (fold_minutes_NaN (e :: evs) (Some 0) (or_intror H)) as Hf.
      simpl in Hf. by rewrite Hf.
    + rewrite Nat.sub_0_r, last_lookup. done.
Qed.

(** ** User store *)

Lemma findUser_Some (email : string) (users : list User.t) (i : nat)
    (u : User.t) :
  findUser email users = Some (i, u) →
  users !! i = Some u ∧ User.email u = email
  ∧ ∀ j v, users !! j = Some v → (j < i)%nat → User.email v ≠ email.
Proof. unfold findUser. intros H. by apply list_find_Some in H. Qed.

Lemma findUser_None (email : string) (users : list User.t) :
  findUser email users = None ↔ email ∉ User.email <$> users.
Proof.
  unfold findUser. rewrite list_find_None, Forall_forall, list_elem_of_fmap.
  split.
  - intros H (u & -> & Hu). by apply (H u).
  - intros H u Hu E. apply H. by exists u.
Qed.

(** C10. [saveUser] returns, touches nothing but the user store, and on a
    store in which every e-mail occurs at most once: the e-mails still
    occur at most once; every record of another e-mail stays where it was,
    unchanged, and no such record appears; and either the record of the
    e-mail was at some index and it is replaced there by the record with
    the new tokens, or there was none and exactly one record is appended. *)
Theorem saveUser_upsert (email : string) (tokens : Tokens) (w : World) :
  NoDup (User.email <$> users w) →
  ∃ w',
    saveUser email tokens w = (Returned tt, w')
    ∧ cache w' = cache w ∧ credentials w' = credentials w
    ∧ calls w' = calls w
    ∧ NoDup (User.email <$> users w')
    ∧ (∀ j u, User.email u ≠ email →
         (users w' !! j = Some u ↔ users w !! j = Some u))
    ∧ ((∃ i u, users w !! i = Some u ∧ User.email u = email
               ∧ users w' = <[i := {| User.email := email;
                                      User.tokens := Some tokens |}]> (users w))
       ∨ ((email ∉ User.email <$> users w)
          ∧ users w' = users w ++ [{| User.email := email;
                                      User.tokens := Some tokens |}])).
Proof.
  intros Hnd. eexists. split; [reflexivity|]. simpl.
  do 3 (split; [done|]). unfold upsertUser.
  destruct (findUser email (users w)) as [[i v]|] eqn:Ef.
  - apply findUser_Some in Ef as (Hi & He & _).
    assert (i < length (users w))%nat as Hlt by (by eapply lookup_lt_Some).
    split; [|split].
    + rewrite list_fmap_insert. simpl.
      rewrite list_insert_id; [done|]. by rewrite list_lookup_fmap, Hi.
    + intros j u Hu. destruct (decide (i = j)) as [<-|Hij].
      * rewrite list_lookup_insert_eq by done. rewrite Hi.
        split; intros [= <-]; done.
      * by rewrite list_lookup_insert_ne.
    + left. exists i, v. by rewrite He.
  - apply findUser_None in Ef. split; [|split].
    + rewrite fmap_app. simpl.
      apply NoDup_app. split; [done|]. split; [|apply NoDup_singleton].
      intros x Hx Hx'. apply list_elem_of_singleton in Hx'. by subst.
    + intros j u Hu. rewrite lookup_app_Some, list_lookup_singleton_Some.
      split; [|by left]. intros [Hj|(_ & _ & <-)]; done.
    + by right.
Qed.

(** ** Running the handlers *)

Example processEvents_demo : processEvents demoDate demoItems = Some demoEvents.
Proof. reflexivity. Qed.

Section HandlerProperties.

Variable Date_parse : string → option Z.
Variable P : Provider.

Ltac run :=
  unfold mbind, M_bind, mret, M_ret, try_catch, throw, call, send,
    getUsers, setUsers, getCache, setCache, getCredentials, setCredentials
    in *;
  simpl in *.

Lemma ensureAuthenticated_missing (req : Request)
    (next : string → M Response) (w : World) :
  nonempty (header_X_User_Email req) = None →
  ensureAuthenticated req next w
  = (Returned {| status := 400; body := Text "Missing X-User-Email header" |}, w).
Proof. unfold ensureAuthenticated. by intros ->. Qed.

Lemma ensureAuthenticated_unknown (req : Request)
    (next : string → M Response) (w : World) (email : string) :
  nonempty (header_X_User_Email req) = Some email →
  storedTokens w email = None →
  ensureAuthenticated req next w
  = (Returned {| status := 401;
                 body := Text "Not authenticated. Go to /auth to login." |}, w).
Proof.
  unfold ensureAuthenticated, storedTokens, getUser. intros -> H.
  run. by rewrite H.
Qed.

Lemma ensureAuthenticated_ok (req : Request)
    (next : string → M Response) (w : World) (email : string) (t : Tokens) :
  authenticates req w email t →
  ensureAuthenticated req next w = next email (withCredentials t w).
Proof.
  unfold ensureAuthenticated, getUser. intros [-> H].
  unfold storedTokens in H. run. by rewrite H.
Qed.

Lemma fetchProcessedEvents_returns (email : string) (w : World)
    (items : option (list Raw.event)) :
  events_list P (credentials w) = Returned items →
  ∃ evs,
    processEvents Date_parse (default [] items) = Some evs
    ∧ fetchProcessedEvents Date_parse P email w
      = (Returned evs, logCall CallEventsList w).
Proof.
  intros H.
  destruct (processEvents_succeeds Date_parse (default [] items))
    as (evs & Hevs).
  exists evs. split; [done|].
  unfold fetchProcessedEvents. run. by rewrite H, Hevs.
Qed.

Lemma fetchProcessedEvents_throws (email : string) (w : World)
    (message : string) :
  events_list P (credentials w) = Thrown message →
  fetchProcessedEvents Date_parse P email w
  = (Thrown message, logCall CallEventsList w).
Proof. intros H. unfold fetchProcessedEvents. run. by rewrite H. Qed.

(** [GET /events]: the three ways through the handler of an authenticated
    request. *)
Lemma getEvents_hit (now : Z) (req : Request) (w : World) (email : string)
    (t : Tokens) (evs : list Event.t) :
  authenticates req w email t →
  cachedEvents (cache w) email now = Some evs →
  getEvents Date_parse P now req w
  = (Returned {| status := 200; body := JsonEvents evs |},
     withCredentials t w).
Proof.
  intros Ha Hc. unfold getEvents.
  rewrite (ensureAuthenticated_ok _ _ _ _ _ Ha). run. by rewrite Hc.
Qed.

Lemma getEvents_fetched (now : Z) (req : Request) (w : World)
    (email : string) (t : Tokens) (items : option (list Raw.event)) :
  authenticates req w email t →
  cachedEvents (cache w) email now = None →
  events_list P (Some t) = Returned items →
  ∃ evs,
    processEvents Date_parse (default [] items) = Some evs
    ∧ getEvents Date_parse P now req w
      = (Returned {| status := 200; body := JsonEvents evs |},
         withCache
           (<[email := {| events := Some evs;
                          summary := summary (entryOrEmpty (cache w) email);
                          expiry := now + CACHE_TTL_MS |}]> (cache w))
           (logCall CallEventsList (withCredentials t w))).
Proof.
  intros Ha Hc Hp.
  destruct (fetchProcessedEvents_returns email (withCredentials t w) items Hp)
    as (evs & Hevs & Hf).
  exists evs. split; [done|]. unfold getEvents.
  rewrite (ensureAuthenticated_ok _ _ _ _ _ Ha). run. by rewrite Hc, Hf.
Qed.

Lemma getEvents_failed (now : Z) (req : Request) (w : World)
    (email : string) (t : Tokens) (message : string) :
  authenticates req w email t →
  cachedEvents (cache w) email now = None →
  events_list P (Some t) = Thrown message →
  getEvents Date_parse P now req w
  = (Returned {| status := 500;
                 body := JsonError "Failed to fetch events" (Some message) |},
     logCall CallEventsList (withCredentials t w)).
Proof.
  intros Ha Hc Hp.
  pose proof (fetchProcessedEvents_throws email (withCredentials t w) message Hp)
    as Hf.
  unfold getEvents.
  rewrite (ensureAuthenticated_ok _ _ _ _ _ Ha). run. by rewrite Hc, Hf.
Qed.

(** [GET /events/summary]. *)
Lemma getEventsSummary_hit (now : Z) (req : Request) (w : World)
    (email : string) (t : Tokens) (s : Summary.t) :
  authenticates req w email t →
  cachedSummary (cache w) email now = Some s →
  getEventsSummary Date_parse P now req w
  = (Returned {| status := 200; body := JsonSummary s |},
     withCredentials t w).
Proof.
  intros Ha Hc. unfold getEventsSummary.
  rewrite (ensureAuthenticated_ok _ _ _ _ _ Ha). run. by rewrite Hc.
Qed.

Lemma getEventsSummary_fetched (now : Z) (req : Request) (w : World)
    (email : string) (t : Tokens) (items : option (list Raw.event)) :
  authenticates req w email t →
  cachedSummary (cache w) email now = None →
  events_list P (Some t) = Returned items →
  ∃ evs,
    processEvents Date_parse (default [] items) = Some evs
    ∧ getEventsSummary Date_parse P now req w
      = (Returned {| status := 200; body := JsonSummary (summarize evs) |},
         withCache
           (<[email := {| events := events (entryOrEmpty (cache w) email);
                          summary := Some (summarize evs);
                          expiry := now + CACHE_TTL_MS |}]> (cache w))
           (logCall CallEventsList (withCredentials t w))).
Proof.
  intros Ha Hc Hp.
  destruct (fetchProcessedEvents_returns email (withCredentials t w) items Hp)
    as (evs & Hevs & Hf).
  exists evs. split; [done|]. unfold getEventsSummary.
  rewrite (ensureAuthenticated_ok _ _ _ _ _ Ha). run. by rewrite Hc, Hf.
Qed.

Lemma getEventsSummary_failed (now : Z) (req : Request) (w : World)
    (email : string) (t : Tokens) (message : string) :
  authenticates req w email t →
  cachedSummary (cache w) email now = None →
  events_list P (Some t) = Thrown message →
  getEventsSummary Date_parse P now req w
  = (Returned {| status := 500;
                 body := JsonError "Failed to fetch summary" (Some message) |},
     logCall CallEventsList (withCredentials t w)).
Proof.
  intros Ha Hc Hp.
  pose proof (fetchProcessedEvents_throws email (withCredentials t w) message Hp)
    as Hf.
  unfold getEventsSummary.
  rewrite (ensureAuthenticated_ok _ _ _ _ _ Ha). run. by rewrite Hc, Hf.
Qed.

(** [GET /events/:id]. *)
Lemma getEventById_fetched (req : Request) (w : World)
    (email : string) (t : Tokens) (items : option (list Raw.event)) :
  authenticates req w email t →
  events_list P (Some t) = Returned items →
  ∃ evs,
    processEvents Date_parse (default [] items) = Some evs
    ∧ getEventById Date_parse P req w
      = (Returned
           match List.find (λ e, bool_decide (Event.id e = params_id req)) evs with
           | Some e => {| status := 200; body := JsonEvent e |}
           | None => {| status := 404; body := JsonError "Event not found" None |}
           end,
         logCall CallEventsList (withCredentials t w)).
Proof.
  intros Ha Hp.
  destruct (fetchProcessedEvents_returns email (withCredentials t w) items Hp)
    as (evs & Hevs & Hf).
  exists evs. split; [done|]. unfold getEventById.
  rewrite (ensureAuthenticated_ok _ _ _ _ _ Ha). run. rewrite Hf.
  by destruct (List.find _ evs).
Qed.

Lemma getEventById_failed (req : Request) (w : World)
    (email : string) (t : Tokens) (message : string) :
  authenticates req w email t →
  events_list P (Some t) = Thrown message →
  getEventById Date_parse P req w
  = (Returned {| status := 500;
                 body := JsonError "Failed to fetch event" (Some message) |},
     logCall CallEventsList (withCredentials t w)).
Proof.
  intros Ha Hp.
  pose proof (fetchProcessedEvents_throws email (withCredentials t w) message Hp)
    as Hf.
  unfold getEventById.
  rewrite (ensureAuthenticated_ok _ _ _ _ _ Ha). run. by rewrite Hf.
Qed.

End HandlerProperties.

(** ** Authentication errors *)

Lemma nonempty_header (o : option string) (email : string) :
  o = Some email → email ≠ "" → nonempty o = Some email.
Proof. intros. by apply nonempty_Some. Qed.

Lemma storedTokens_None (w : World) (email : string) :
  (∀ u, u ∈ users w → User.email u = email → User.tokens u = None) →
  storedTokens w email = None.
Proof.
  intros H. unfold storedTokens.
  destruct (findUser email (users w)) as [[i u]|] eqn:Ef; [|done].
  apply findUser_Some in Ef as (Hi & He & _). simpl.
  apply H; [|done]. by eapply list_elem_of_lookup_2.
Qed.

(** C7. On each of the three read endpoints, a request without the
    [X-User-Email] header is answered 400, and a request whose header names
    an e-mail for which the store holds no credentials (no record, or
    records without tokens) is answered 401; in both cases the state is
    left as it was and the provider is not called. *)
Theorem read_endpoints_reject_unidentified (Date_parse : string → option Z)
    (P : Provider) (ep : ReadEndpoint) (now : Z) (req : Request) (w : World) :
  (header_X_User_Email req = None →
     ∃ b, readEndpoint Date_parse P ep now req w
          = (Returned {| status := 400; body := b |}, w))
  ∧ (∀ email,
       header_X_User_Email req = Some email → email ≠ "" →
       (∀ u, u ∈ users w → User.email u = email → User.tokens u = None) →
       ∃ b, readEndpoint Date_parse P ep now req w
            = (Returned {| status := 401; body := b |}, w)).
Proof.
  split.
  - intros H. eexists.
    destruct ep; simpl; apply ensureAuthenticated_missing; by rewrite H.
  - intros email H Hne Hu. eexists.
    destruct ep; simpl;
      apply (ensureAuthenticated_unknown _ _ _ email);
      auto using nonempty_header, storedTokens_None.
Qed.

Lemma read_endpoints_reject_unidentified_witness :
  (∃ b, readEndpoint demoDate failing EventById 0
          (demoRequest None "meeting") demoWorld
        = (Returned {| status := 400; body := b |}, demoWorld))
  ∧ (∃ b, readEndpoint demoDate failing EventsSummary 0
            (demoRequest (Some "bob@example.com") "") demoWorld
          = (Returned {| status := 401; body := b |}, demoWorld)).
Proof.
  split.
  - apply (proj1 (read_endpoints_reject_unidentified demoDate failing
                      EventById 0 (demoRequest None "meeting") demoWorld)).
    reflexivity.
  - apply (proj2 (read_endpoints_reject_unidentified demoDate failing
                      EventsSummary 0
                      (demoRequest (Some "bob@example.com") "") demoWorld)
                 "bob@example.com"); [reflexivity | discriminate |].
    intros u Hu He. unfold demoWorld, demoUsers in Hu. simpl in Hu.
    apply elem_of_cons in Hu as [->|Hu]; [discriminate He|].
    apply list_elem_of_singleton in Hu as ->. reflexivity.
Defined.

(** ** Provider failures *)

(** C9. When the provider fetch of an authenticated [GET /events] or
    [GET /events/summary] request fails (the cache has no fresh value and
    the calendar call throws), the handler answers 500 and the cache is
    exactly what it was before the request. *)
Theorem fetch_failure_keeps_cache (Date_parse : string → option Z)
    (P : Provider) (now : Z) (req : Request) (w : World) (email : string)
    (t : Tokens) (message : string) :
  authenticates req w email t →
  events_list P (Some t) = Thrown message →
  (cachedEvents (cache w) email now = None →
     ∃ b w', getEvents Date_parse P now req w
             = (Returned {| status := 500; body := b |}, w')
             ∧ cache w' = cache w
             ∧ calls w' = calls w ++ [CallEventsList])
  ∧ (cachedSummary (cache w) email now = None →
     ∃ b w', getEventsSummary Date_parse P now req w
             = (Returned {| status := 500; body := b |}, w')
             ∧ cache w' = cache w
             ∧ calls w' = calls w ++ [CallEventsList]).
Proof.
  intros Ha Hp. split; intros Hc; do 2 eexists.
  - split; [by eapply getEvents_failed|done].
  - split; [by eapply getEventsSummary_failed|done].
Qed.

Lemma fetch_failure_keeps_cache_witness :
  ∃ b w', getEvents demoDate failing 1000 annRequest demoWorld
          = (Returned {| status := 500; body := b |}, w')
          ∧ cache w' = cache demoWorld
          ∧ calls w' = calls demoWorld ++ [CallEventsList].
Proof.
  refine (proj1 (fetch_failure_keeps_cache demoDate failing 1000 annRequest
                   demoWorld "ann@example.com" demoTokens "backend error"
                   _ _) _).
  - split; reflexivity.
  - reflexivity.
  - reflexivity.
Defined.

(** ** Single-event lookup *)

(** [Array.prototype.find] scans from the left and stops at the first
    match. *)
Lemma find_first {A} (f : A → bool) (l : list A) :
  match List.find f l with
  | Some x => ∃ pre post, l = pre ++ x :: post ∧ f x = true
                          ∧ ∀ y, y ∈ pre → f y = false
  | None => ∀ y, y ∈ l → f y = false
  end.
Proof.
  induction l as [|a l IH]; simpl.
  - intros y Hy. by apply elem_of_nil in Hy.
  - destruct (f a) eqn:Ea.
    + exists [], l. repeat split; [done|].
      intros y Hy. by apply elem_of_nil in Hy.
    + destruct (List.find f l) as [x|].
      * destruct IH as (pre & post & -> & Hx & Hpre).
        exists (a :: pre), post. repeat split; [done|].
        intros y Hy. apply elem_of_cons in Hy as [->|Hy]; auto.
      * intros y Hy. apply elem_of_cons in Hy as [->|Hy]; auto.
Qed.

(** C5. The handler of [GET /events/:id] never reads or writes the cache:
    for an authenticated request it calls the provider exactly once,
    whatever the cache holds, leaves the cache as it was, and would answer
    the same with any other cache.  When the fetch succeeds it answers with
    the first event of the fetched list whose [id] is the requested one,
    and with 404 when the list has no such event. *)
Theorem getEventById_scans_fresh_list (Date_parse : string → option Z)
    (P : Provider) (req : Request) (w : World) (email : string) (t : Tokens) :
  authenticates req w email t →
  ∃ r w',
    getEventById Date_parse P req w = (Returned r, w')
    ∧ calls w' = calls w ++ [CallEventsList]
    ∧ cache w' = cache w
    ∧ (∀ c, getEventById Date_parse P req (withCache c w)
            = (Returned r, withCache c w'))
    ∧ match events_list P (Some t) with
      | Thrown message => status r = 500%nat
      | Returned items =>
          ∃ evs,
            processEvents Date_parse (default [] items) = Some evs
            ∧ ((∃ pre e post,
                  evs = pre ++ e :: post
                  ∧ Event.id e = params_id req
                  ∧ (∀ x, x ∈ pre → Event.id x ≠ params_id req)
                  ∧ r = {| status := 200; body := JsonEvent e |})
               ∨ ((∀ x, x ∈ evs → Event.id x ≠ params_id req)
                  ∧ status r = 404%nat))
      end.
Proof.
  intros Ha.
  assert (∀ c, authenticates req (withCache c w) email t) as Hac.
  { intros c. destruct Ha as [Hh Hs]. by split. }
  destruct (events_list P (Some t)) as [items|message] eqn:Hp.
  - destruct (getEventById_fetched Date_parse P req w email t items Ha Hp)
      as (evs & Hevs & Hrun).
    do 2 eexists. split; [exact Hrun|]. do 2 (split; [done|]). split.
    + intros c.
      destruct (getEventById_fetched Date_parse P req (withCache c w)
                  email t items (Hac c) Hp) as (evs' & Hevs' & Hrun').
      rewrite Hrun'. by simplify_eq.
    + exists evs. split; [done|].
      pose proof (find_first (λ e, bool_decide (Event.id e = params_id req)) evs)
        as Hf.
      destruct (List.find _ evs) as [e|].
      * left. destruct Hf as (pre & post & -> & He & Hpre).
        exists pre, e, post. repeat split; [by apply bool_decide_eq_true in He|].
        intros x Hx. apply Hpre in Hx. by apply bool_decide_eq_false in Hx.
      * right. split; [|done].
        intros x Hx. apply Hf in Hx. by apply bool_decide_eq_false in Hx.
  - do 2 eexists. split; [by eapply getEventById_failed|].
    do 2 (split; [done|]). split; [|done].
    intros c. by erewrite getEventById_failed.
Qed.

Lemma getEventById_scans_fresh_list_witness :
  ∃ r w',
    getEventById demoDate (listing demoItems) annRequest demoWorld
    = (Returned r, w')
    ∧ calls w' = calls demoWorld ++ [CallEventsList]
    ∧ cache w' = cache demoWorld.
Proof.
  destruct (getEventById_scans_fresh_list demoDate (listing demoItems)
              annRequest demoWorld "ann@example.com" demoTokens)
    as (r & w' & Hrun & Hcalls & Hcache & _).
  - split; reflexivity.
  - exists r, w'. auto.
Defined.

Example getEventById_found :
  fst (getEventById demoDate (listing demoItems) annRequest demoWorld)
  = Returned {| status := 200;
                body := JsonEvent (demoEvent "meeting" "2025-07-25T15:00:00Z"
                                     "2025-07-25T16:00:00Z" 60) |}.
Proof. reflexivity. Qed.

Example getEventById_cancelled_not_found :
  fst (getEventById demoDate (listing demoItems)
         (demoRequest (Some "ann@example.com") "dropped") demoWorld)
  = Returned {| status := 404; body := JsonError "Event not found" None |}.
Proof. reflexivity. Qed.

(** ** Invalidation *)

Lemma cachedEvents_Some (c : gmap string CacheEntry) (email : string)
    (now : Z) (evs : list Event.t) :
  cachedEvents c email now = Some evs
  ↔ ∃ e, c !! email = Some e ∧ events e = Some evs ∧ now < expiry e.
Proof.
  unfold cachedEvents. destruct (c !! email) as [e|]; simpl.
  - destruct (events e) as [l|] eqn:El; simpl.
    + case_bool_decide; split.
      * intros [= <-]. exists e. split; [done|]. split; [done|lia].
      * intros (? & [= <-] & ? & _). congruence.
      * done.
      * intros (? & [= <-] & _ & ?). lia.
    + split; [done|]. intros (? & [= <-] & ? & _). congruence.
  - split; [done|]. by intros (? & ? & _).
Qed.

Lemma cachedSummary_Some (c : gmap string CacheEntry) (email : string)
    (now : Z) (s : Summary.t) :
  cachedSummary c email now = Some s
  ↔ ∃ e, c !! email = Some e ∧ summary e = Some s ∧ now < expiry e.
Proof.
  unfold cachedSummary. destruct (c !! email) as [e|]; simpl.
  - destruct (summary e) as [l|] eqn:El; simpl.
    + case_bool_decide; split.
      * intros [= <-]. exists e. split; [done|]. split; [done|lia].
      * intros (? & [= <-] & ? & _). congruence.
      * done.
      * intros (? & [= <-] & _ & ?). lia.
    + split; [done|]. intros (? & [= <-] & ? & _). congruence.
  - split; [done|]. by intros (? & ? & _).
Qed.

Lemma cachedEvents_None (c : gmap string CacheEntry) (email : string)
    (now : Z) :
  (∀ e, c !! email = Some e → events e = None ∨ expiry e ≤ now) →
  cachedEvents c email now = None.
Proof.
  intros H. destruct (cachedEvents c email now) as [evs|] eqn:E; [|done].
  apply cachedEvents_Some in E as (e & He & Hev & Hex).
  destruct (H e He) as [?|?]; [congruence|lia].
Qed.

Lemma cachedSummary_None (c : gmap string CacheEntry) (email : string)
    (now : Z) :
  (∀ e, c !! email = Some e → summary e = None ∨ expiry e ≤ now) →
  cachedSummary c email now = None.
Proof.
  intros H. destruct (cachedSummary c email now) as [s|] eqn:E; [|done].
  apply cachedSummary_Some in E as (e & He & Hev & Hex).
  destruct (H e He) as [?|?]; [congruence|lia].
Qed.

(** A request whose cache lookup misses calls the provider exactly once,
    whether the call succeeds or fails. *)
Lemma miss_calls_provider (Date_parse : string → option Z) (P : Provider)
    (ep : ReadEndpoint) (now : Z) (req : Request) (w : World)
    (email : string) (t : Tokens) :
  authenticates req w email t →
  match ep with
  | Events => cachedEvents (cache w) email now = None
  | EventsSummary => cachedSummary (cache w) email now = None
  | EventById => True
  end →
  ∃ r w', readEndpoint Date_parse P ep now req w = (Returned r, w')
          ∧ users w' = users w
          ∧ calls w' = calls w ++ [CallEventsList].
Proof.
  intros Ha Hc. destruct (events_list P (Some t)) as [items|message] eqn:Hp.
  - destruct ep; simpl.
    + destruct (getEvents_fetched Date_parse P now req w email t items Ha Hc Hp)
        as (evs & _ & ->). by do 2 eexists.
    + destruct (getEventsSummary_fetched Date_parse P now req w email t items
                  Ha Hc Hp) as (evs & _ & ->). by do 2 eexists.
    + destruct (getEventById_fetched Date_parse P req w email t items Ha Hp)
        as (evs & _ & ->). by do 2 eexists.
  - destruct ep; simpl.
    + erewrite getEvents_failed by done. by do 2 eexists.
    + erewrite getEventsSummary_failed by done. by do 2 eexists.
    + erewrite getEventById_failed by done. by do 2 eexists.
Qed.

(** Every read request is answered: no handler lets an error escape. *)
Lemma readEndpoint_responds (Date_parse : string → option Z) (P : Provider)
    (ep : ReadEndpoint) (now : Z) (req : Request) (w : World) :
  ∃ r w', readEndpoint Date_parse P ep now req w = (Returned r, w').
Proof.
  destruct (nonempty (header_X_User_Email req)) as [email|] eqn:Hh.
  - destruct (storedTokens w email) as [t|] eqn:Hs.
    + assert (authenticates req w email t) as Ha by done.
      destruct ep; simpl.
      * destruct (cachedEvents (cache w) email now) as [evs|] eqn:Hc.
        -- erewrite getEvents_hit by done. by do 2 eexists.
        -- destruct (miss_calls_provider Date_parse P Events now req w email t
                       Ha Hc) as (r & w' & Hrun & _). by exists r, w'.
      * destruct (cachedSummary (cache w) email now) as [s|] eqn:Hc.
        -- erewrite getEventsSummary_hit by done. by do 2 eexists.
        -- destruct (miss_calls_provider Date_parse P EventsSummary now req w
                       email t Ha Hc) as (r & w' & Hrun & _). by exists r, w'.
      * destruct (miss_calls_provider Date_parse P EventById now req w
                    email t Ha I) as (r & w' & Hrun & _). by exists r, w'.
    + do 2 eexists.
      destruct ep; simpl; by eapply ensureAuthenticated_unknown.
  - do 2 eexists.
    destruct ep; simpl; by eapply ensureAuthenticated_missing.
Qed.

(** C6. [invalidateCache(email)] replaces the user's entry by one whose
    [events] and [summary] are null and whose [expiry] is 0, and touches
    nothing else; the next read of any endpoint by that user, at whatever
    clock reading, calls the provider. *)
Theorem invalidate_forces_fetch (Date_parse : string → option Z)
    (P : Provider) (ep : ReadEndpoint) (now : Z) (req : Request) (w : World)
    (email : string) (t : Tokens) :
  authenticates req w email t →
  ∃ w0,
    invalidateCache email w = (Returned tt, w0)
    ∧ cache w0 !! email
      = Some {| events := None; summary := None; expiry := 0 |}
    ∧ (∀ other, other ≠ email → cache w0 !! other = cache w !! other)
    ∧ users w0 = users w ∧ calls w0 = calls w
    ∧ ∃ r w', readEndpoint Date_parse P ep now req w0 = (Returned r, w')
              ∧ calls w' = calls w ++ [CallEventsList].
Proof.
  intros Ha. eexists. split; [reflexivity|]. simpl.
  split; [by rewrite lookup_insert_eq|].
  split; [by intros other Ho; rewrite lookup_insert_ne|].
  do 2 (split; [done|]).
  set (w0 := withCache (<[email:=invalidatedEntry]> (cache w)) w).
  assert (authenticates req w0 email t) as Ha0.
  { destruct Ha as [Hh Hs]. by split. }
  destruct (miss_calls_provider Date_parse P ep now req w0 email t Ha0)
    as (r & w' & Hrun & _ & Hcalls).
  - destruct ep; [| |done].
    + apply cachedEvents_None. simpl. intros e.
      rewrite lookup_insert_eq. intros [= <-]. by left.
    + apply cachedSummary_None. simpl. intros e.
      rewrite lookup_insert_eq. intros [= <-]. by left.
  - exists r, w'. by split.
Qed.

Lemma invalidate_forces_fetch_witness :
  ∃ w0,
    invalidateCache "ann@example.com" demoWorld = (Returned tt, w0)
    ∧ ∃ r w', readEndpoint demoDate (listing demoItems) Events (-5) annRequest w0
              = (Returned r, w')
              ∧ calls w' = calls demoWorld ++ [CallEventsList].
Proof.
  destruct (invalidate_forces_fetch demoDate (listing demoItems) Events (-5)
              annRequest demoWorld "ann@example.com" demoTokens)
    as (w0 & Hi & _ & _ & _ & _ & Hread).
  - split; reflexivity.
  - exists w0. auto.
Defined.

(** ** The cache window *)

Lemma authenticates_users (req : Request) (w w' : World) (email : string)
    (t : Tokens) :
  users w' = users w →
  authenticates req w email t → authenticates req w' email t.
Proof. unfold authenticates, storedTokens. by intros ->. Qed.

(** Once an entry holds an event list, [GET /events] serves that list
    without calling the provider until the entry's expiry, and calls the
    provider once from the expiry on. *)
Lemma events_window (Date_parse : string → option Z) (P : Provider)
    (req : Request) (w : World) (email : string) (t : Tokens)
    (e : CacheEntry) (evs : list Event.t) :
  authenticates req w email t →
  cache w !! email = Some e → events e = Some evs →
  (∀ now, now < expiry e →
     ∃ w', getEvents Date_parse P now req w
           = (Returned {| status := 200; body := JsonEvents evs |}, w')
           ∧ calls w' = calls w)
  ∧ (∀ now, expiry e ≤ now →
     ∃ r w', getEvents Date_parse P now req w = (Returned r, w')
             ∧ calls w' = calls w ++ [CallEventsList]).
Proof.
  intros Ha He Hevs. split; intros now Hnow.
  - eexists. split.
    + eapply getEvents_hit; [done|]. apply cachedEvents_Some. by exists e.
    + done.
  - destruct (miss_calls_provider Date_parse P Events now req w email t Ha)
      as (r & w' & Hrun & _ & Hcalls); [|by exists r, w'].
    apply cachedEvents_None. intros e' He'. right. by simplify_eq.
Qed.

Lemma summary_window (Date_parse : string → option Z) (P : Provider)
    (req : Request) (w : World) (email : string) (t : Tokens)
    (e : CacheEntry) (s : Summary.t) :
  authenticates req w email t →
  cache w !! email = Some e → summary e = Some s →
  (∀ now, now < expiry e →
     ∃ w', getEventsSummary Date_parse P now req w
           = (Returned {| status := 200; body := JsonSummary s |}, w')
           ∧ calls w' = calls w)
  ∧ (∀ now, expiry e ≤ now →
     ∃ r w', getEventsSummary Date_parse P now req w = (Returned r, w')
             ∧ calls w' = calls w ++ [CallEventsList]).
Proof.
  intros Ha He Hs. split; intros now Hnow.
  - eexists. split.
    + eapply getEventsSummary_hit; [done|]. apply cachedSummary_Some.
      by exists e.
    + done.
  - destruct (miss_calls_provider Date_parse P EventsSummary now req w email t Ha)
      as (r & w' & Hrun & _ & Hcalls); [|by exists r, w'].
    apply cachedSummary_None. intros e' He'. right. by simplify_eq.
Qed.

(** C8. A [GET /events/summary] request that misses the cache and succeeds
    writes the new summary and the expiry [now + 60000] into the user's
    entry and keeps the entry's [events] field (other users' entries are
    untouched).  Hence, if the entry held an event list before, expired or
    not, a [GET /events] request earlier than 60 seconds after that summary
    request is answered with that old list and no provider call. *)
Theorem summary_miss_keeps_events (Date_parse : string → option Z)
    (P1 P2 : Provider) (now : Z) (req : Request) (w : World) (email : string)
    (t : Tokens) (r : Response) (w1 : World) :
  authenticates req w email t →
  cachedSummary (cache w) email now = None →
  getEventsSummary Date_parse P1 now req w = (Returned r, w1) →
  status r = 200%nat →
  (∃ s, body r = JsonSummary s
        ∧ cache w1 !! email
          = Some {| events := events (entryOrEmpty (cache w) email);
                    summary := Some s;
                    expiry := now + 60 * 1000 |})
  ∧ (∀ other, other ≠ email → cache w1 !! other = cache w !! other)
  ∧ (∀ e old,
       cache w !! email = Some e → events e = Some old →
       ∀ later, later < now + 60 * 1000 →
         ∃ w2, getEvents Date_parse P2 later req w1
               = (Returned {| status := 200; body := JsonEvents old |}, w2)
               ∧ calls w2 = calls w1).
Proof.
  intros Ha Hc Hrun Hst.
  destruct (events_list P1 (Some t)) as [items|message] eqn:Hp.
  - destruct (getEventsSummary_fetched Date_parse P1 now req w email t items
                Ha Hc Hp) as (evs & _ & Hrun').
    rewrite Hrun' in Hrun. injection Hrun as <- <-. simpl.
    split; [|split].
    + eexists. split; [done|]. by rewrite lookup_insert_eq.
    + intros other Ho. by rewrite lookup_insert_ne.
    + intros e old He Hold later Hlater.
      refine (proj1 (events_window Date_parse P2 req _ email t
                       {| events := events (entryOrEmpty (cache w) email);
                          summary := Some (summarize evs);
                          expiry := now + CACHE_TTL_MS |} old _ _ _)
                later Hlater).
      * eapply authenticates_users; [|exact Ha]. done.
      * simpl. by rewrite lookup_insert_eq.
      * simpl. unfold entryOrEmpty. by rewrite He.
  - rewrite (getEventsSummary_failed Date_parse P1 now req w email t message
               Ha Hc Hp) in Hrun.
    injection Hrun as <- <-. done.
Qed.

Lemma summary_miss_keeps_events_witness :
  let w1 := snd (getEventsSummary demoDate (listing []) 5000 annRequest
                   staleWorld) in
  ∃ w2, getEvents demoDate failing 6000 annRequest w1
        = (Returned {| status := 200; body := JsonEvents demoEvents |}, w2)
        ∧ calls w2 = calls w1.
Proof.
  intros w1.
  refine (proj2 (proj2 (summary_miss_keeps_events demoDate (listing []) failing
                   5000 annRequest staleWorld "ann@example.com" demoTokens
                   {| status := 200; body := JsonSummary (summarize []) |} w1
                   _ _ _ _))
            {| events := Some demoEvents; summary := None; expiry := 1000 |}
            demoEvents _ _ 6000 _).
  - split; reflexivity.
  - reflexivity.
  - reflexivity.
  - reflexivity.
  - reflexivity.
  - reflexivity.
  - reflexivity.
Defined.

(** C1 (amended). Take an authenticated request answered 200.  On
    [GET /events] and [GET /events/summary] the user's entry then holds the
    answer; its expiry is the clock reading of the request plus 60000 if
    the provider was called, and was already later than that reading if it
    was not.  Until that expiry a further request to the same endpoint gets
    the identical answer without a provider call, whatever the provider
    would say; from the expiry on, a further request calls the provider
    exactly once.  [GET /events/:id] is not cached: the request called the
    provider once, and so does every further request. *)
Theorem cache_window (Date_parse : string → option Z) (P1 P2 : Provider)
    (ep : ReadEndpoint) (t1 : Z) (req : Request) (w : World) (email : string)
    (t : Tokens) (r : Response) (w1 : World) :
  authenticates req w email t →
  readEndpoint Date_parse P1 ep t1 req w = (Returned r, w1) →
  status r = 200%nat →
  match ep with
  | EventById =>
      calls w1 = calls w ++ [CallEventsList]
      ∧ ∀ t2, ∃ r2 w2,
          readEndpoint Date_parse P2 ep t2 req w1 = (Returned r2, w2)
          ∧ calls w2 = calls w1 ++ [CallEventsList]
  | _ =>
      ∃ e,
        cache w1 !! email = Some e
        ∧ ((calls w1 = calls w ∧ t1 < expiry e)
           ∨ (calls w1 = calls w ++ [CallEventsList]
              ∧ expiry e = t1 + 60 * 1000))
        ∧ (∀ t2, t2 < expiry e →
             ∃ w2, readEndpoint Date_parse P2 ep t2 req w1 = (Returned r, w2)
                   ∧ calls w2 = calls w1)
        ∧ (∀ t2, expiry e ≤ t2 →
             ∃ r2 w2,
               readEndpoint Date_parse P2 ep t2 req w1 = (Returned r2, w2)
               ∧ calls w2 = calls w1 ++ [CallEventsList])
  end.
Proof.
  intros Ha Hrun Hst. destruct ep; simpl in Hrun.
  - (* GET /events *)
    destruct (cachedEvents (cache w) email t1) as [evs|] eqn:Hc.
    + rewrite (getEvents_hit Date_parse P1 t1 req w email t evs Ha Hc) in Hrun.
      injection Hrun as <- <-.
      apply cachedEvents_Some in Hc as (e & He & Hevs & Hex).
      exists e. split; [done|]. split; [by left|].
      apply (events_window Date_parse P2 req (withCredentials t w) email t e evs);
        [by eapply authenticates_users; [|exact Ha] | done..].
    + destruct (events_list P1 (Some t)) as [items|message] eqn:Hp.
      * destruct (getEvents_fetched Date_parse P1 t1 req w email t items
                    Ha Hc Hp) as (evs & _ & Hrun').
        rewrite Hrun' in Hrun. injection Hrun as <- <-.
        eexists. split; [simpl; by rewrite lookup_insert_eq|].
        split; [by right|].
        eapply (events_window Date_parse P2 req _ email t _ evs);
          [by eapply authenticates_users; [|exact Ha]
          | simpl; by rewrite lookup_insert_eq | done].
      * rewrite (getEvents_failed Date_parse P1 t1 req w email t message
                   Ha Hc Hp) in Hrun.
        injection Hrun as <- <-. done.
  - (* GET /events/summary *)
    destruct (cachedSummary (cache w) email t1) as [s|] eqn:Hc.
    + rewrite (getEventsSummary_hit Date_parse P1 t1 req w email t s Ha Hc)
        in Hrun.
      injection Hrun as <- <-.
      apply cachedSummary_Some in Hc as (e & He & Hs & Hex).
      exists e. split; [done|]. split; [by left|].
      apply (summary_window Date_parse P2 req (withCredentials t w) email t e s);
        [by eapply authenticates_users; [|exact Ha] | done..].
    + destruct (events_list P1 (Some t)) as [items|message] eqn:Hp.
      * destruct (getEventsSummary_fetched Date_parse P1 t1 req w email t items
                    Ha Hc Hp) as (evs & _ & Hrun').
        rewrite Hrun' in Hrun. injection Hrun as <- <-.
        eexists. split; [simpl; by rewrite lookup_insert_eq|].
        split; [by right|].
        eapply (summary_window Date_parse P2 req _ email t _ (summarize evs));
          [by eapply authenticates_users; [|exact Ha]
          | simpl; by rewrite lookup_insert_eq | done].
      * rewrite (getEventsSummary_failed Date_parse P1 t1 req w email t message
                   Ha Hc Hp) in Hrun.
        injection Hrun as <- <-. done.
  - (* GET /events/:id *)
    destruct (miss_calls_provider Date_parse P1 EventById t1 req w email t Ha I)
      as (r' & w' & Hrun' & Hu & Hcalls).
    simpl in Hrun'. rewrite Hrun' in Hrun. injection Hrun as <- <-.
    split; [done|]. intros t2.
    destruct (miss_calls_provider Date_parse P2 EventById t2 req w' email t)
      as (r2 & w2 & Hrun2 & _ & Hcalls2); [|done|by exists r2, w2].
    by eapply authenticates_users; [|exact Ha].
Qed.

Lemma cache_window_witness :
  let w1 := snd (getEvents demoDate (listing demoItems) 0 annRequest
                   demoWorld) in
  ∃ e,
    cache w1 !! "ann@example.com" = Some e
    ∧ ((calls w1 = calls demoWorld ∧ 0 < expiry e)
       ∨ (calls w1 = calls demoWorld ++ [CallEventsList]
          ∧ expiry e = 0 + 60 * 1000))
    ∧ (∀ t2, t2 < expiry e →
         ∃ w2, readEndpoint demoDate failing Events t2 annRequest w1
               = (Returned {| status := 200; body := JsonEvents demoEvents |},
                  w2)
               ∧ calls w2 = calls w1)
    ∧ (∀ t2, expiry e ≤ t2 →
         ∃ r2 w2,
           readEndpoint demoDate failing Events t2 annRequest w1
           = (Returned r2, w2)
           ∧ calls w2 = calls w1 ++ [CallEventsList]).
Proof.
  intros w1.
  exact (cache_window demoDate (listing demoItems) failing Events 0 annRequest
           demoWorld "ann@example.com" demoTokens
           {| status := 200; body := JsonEvents demoEvents |} w1
           (conj eq_refl eq_refl) eq_refl eq_refl).
Defined.

(** Two [GET /events/:id] requests of the same user one second apart: the
    provider is called for each, and the second answer follows the
    provider's new listing. *)
Lemma event_lookup_refetches :
  ∃ r1 w1 r2 w2,
    readEndpoint demoDate (listing demoItems) EventById 0 annRequest demoWorld
    = (Returned r1, w1)
    ∧ status r1 = 200%nat
    ∧ readEndpoint demoDate (listing []) EventById 1000 annRequest w1
      = (Returned r2, w2)
    ∧ 0 ≤ 1000 < 0 + CACHE_TTL_MS
    ∧ calls w1 = [CallEventsList]
    ∧ calls w2 = [CallEventsList; CallEventsList]
    ∧ r2 ≠ r1.
Proof.
  do 4 eexists. split; [reflexivity|]. split; [reflexivity|].
  split; [reflexivity|]. split; [done|]. do 2 (split; [reflexivity|]).
  discriminate.
Qed.

(** ** The OAuth callback *)

(** C3. Given a code that the provider exchanges for a token bundle, the
    callback resolves the e-mail by the chain identity token, user-info,
    token introspection: after the token exchange it calls exactly the
    steps whose token is present and before which no e-mail was found, in
    that order.  With an e-mail it answers 200, upserts the bundle under
    that e-mail and invalidates that user's cache entry; if no step yields
    an e-mail it answers 400 and the user store and the cache are left
    unchanged. *)
Theorem oauth2callback_identity_chain (P : Provider) (req : Request)
    (w : World) (code : string) (tokens : Tokens) :
  nonempty (query_code req) = Some code →
  getToken P code = Returned tokens →
  ∃ r w',
    oauth2callback P req w = (Returned r, w')
    ∧ calls w' = calls w ++ CallGetToken code :: chainCalls P tokens
    ∧ match resolvedEmail P tokens with
      | Some email =>
          status r = 200%nat
          ∧ users w' = upsertUser email tokens (users w)
          ∧ cache w' = <[email := invalidatedEntry]> (cache w)
      | None =>
          status r = 400%nat ∧ users w' = users w ∧ cache w' = cache w
      end.
Proof.
  intros Hcode Htok.
  unfold oauth2callback, resolvedEmail, chainCalls, viaIdToken, viaUserinfo,
    viaTokenInfo, tryEmail, saveUser, invalidateCache.
  rewrite Hcode.
  unfold mbind, M_bind, mret, M_ret, try_catch, throw, call, send,
    getUsers, setUsers, getCache, setCache, getCredentials, setCredentials.
  rewrite Htok. simpl.
  repeat
    (simpl;
     repeat match goal with
            | H : ?l = _ |- context [?l] => rewrite H; simpl
            end;
     match goal with
     | |- context [nonempty (id_token tokens)] =>
         destruct (nonempty (id_token tokens)) as [idt|] eqn:?
     | |- context [verifyIdToken P ?i] =>
         destruct (verifyIdToken P i) as [e1|] eqn:?
     | |- context [nonempty (access_token tokens)] =>
         destruct (nonempty (access_token tokens)) as [at_|] eqn:?
     | |- context [userinfo_get P ?c] =>
         destruct (userinfo_get P c) as [e2|] eqn:?
     | |- context [getTokenInfo P ?a] =>
         destruct (getTokenInfo P a) as [e3|] eqn:?
     | |- context [nonempty ?e] => destruct (nonempty e) eqn:?
     end);
    simpl;
    repeat match goal with
           | H : ?l = _ |- context [?l] => rewrite H; simpl
           end;
    do 2 eexists; (split; [reflexivity|]); simpl;
    rewrite <- ?app_assoc; done.
Qed.

Lemma oauth2callback_identity_chain_witness :
  ∃ r w',
    oauth2callback failing callbackRequest demoWorld = (Returned r, w')
    ∧ calls w' = [CallGetToken "4/code"; CallVerifyIdToken "id-token";
                  CallUserinfo; CallTokenInfo "access-token"]
    ∧ status r = 400%nat
    ∧ users w' = users demoWorld
    ∧ cache w' = cache demoWorld.
Proof.
  exact (oauth2callback_identity_chain failing callbackRequest demoWorld
           "4/code" demoTokens eq_refl eq_refl).
Defined.

(** The identity token alone resolves the e-mail: the two later steps are
    not attempted, and the bundle is stored under that e-mail. *)
Example oauth2callback_id_token_first :
  let '(r, w') := oauth2callback (listing []) callbackRequest demoWorld in
  (status <$> (match r with Returned x => Some x | Thrown _ => None end)
   = Some 200%nat)
  ∧ calls w' = [CallGetToken "4/code"; CallVerifyIdToken "id-token"]
  ∧ users w' = demoUsers.
Proof. repeat split. Qed.

(** ** Concrete runs of the pure parts *)

Lemma summarize_spec_witness :
  Summary.totalEvents (summarize demoEvents) = 3%nat
  ∧ (∃ q, Summary.totalHours (summarize demoEvents) = Some q
          ∧ Qeq q (inject_Z 1521 / 60)%Q)
  ∧ Summary.firstEventStart (summarize demoEvents)
    = Some "2025-07-25T10:00:00Z"
  ∧ Summary.lastEventEnd (summarize demoEvents) = Some "2025-07-27".
Proof.
  destruct (summarize_spec demoEvents) as (H1 & H2 & _ & H4 & H5 & _).
  split; [exact H1|]. split; [exact (H2 [21; 60; 1440] eq_refl)|].
  split; [exact H4 | exact H5].
Defined.

(** The summary follows the order of the list, not the order of the
    timestamps: with the later event listed first, [firstEventStart] is the
    later start and [lastEventEnd] the earlier end. *)
Example summarize_keeps_list_order :
  let s := summarize
             [ demoEvent "holiday" "2025-07-26" "2025-07-27" 1440;
               demoEvent "meeting" "2025-07-25T15:00:00Z"
                 "2025-07-25T16:00:00Z" 60 ] in
  Summary.firstEventStart s = Some "2025-07-26"
  ∧ Summary.lastEventEnd s = Some "2025-07-25T16:00:00Z".
Proof. split; reflexivity. Qed.

(** [Math.round] on a tie and on negative quotients. *)
Example Math_round_div_ties :
  Math_round_div 1230000 60000 = 21
  ∧ Math_round_div (-30000) 60000 = 0
  ∧ Math_round_div (-90000) 60000 = -1
  ∧ Math_round_div (-90001) 60000 = -2.
Proof. repeat split. Qed.

Lemma saveUser_upsert_witness :
  ∃ w',
    saveUser "bob@example.com" demoTokens demoWorld = (Returned tt, w')
    ∧ users w'
      = [ {| User.email := "ann@example.com"; User.tokens := Some demoTokens |};
          {| User.email := "bob@example.com"; User.tokens := Some demoTokens |} ]
    ∧ NoDup (User.email <$> users w').
Proof.
  destruct (saveUser_upsert "bob@example.com" demoTokens demoWorld)
    as (w' & Hrun & _ & _ & _ & Hnd & _).
  - apply (bool_decide_unpack _). reflexivity.
  - exists w'. split; [exact Hrun|]. split; [|exact Hnd].
    injection Hrun as <-. reflexivity.
Defined.

Example saveUser_appends_new_user :
  users (snd (saveUser "carol@example.com" demoTokens demoWorld))
  = demoUsers ++ [ {| User.email := "carol@example.com";
                      User.tokens := Some demoTokens |} ].
Proof. reflexivity. Qed.

(** * Further properties of the code *)

(** ** The user store: [getUser] and [saveUser] together *)

(** [find] and the upsert, one record at a time. *)
Lemma findUser_cons (email : string) (u : User.t) (us : list User.t) :
  findUser email (u :: us)
  = if decide (User.email u = email) then Some (0%nat, u)
    else prod_map S id <$> findUser email us.
Proof. reflexivity. Qed.

Lemma upsertUser_cons (email : string) (tokens : Tokens) (u : User.t)
    (us : list User.t) :
  upsertUser email tokens (u :: us)
  = if decide (User.email u = email)
    then {| User.email := email; User.tokens := Some tokens |} :: us
    else u :: upsertUser email tokens us.
Proof.
  unfold upsertUser. rewrite findUser_cons.
  destruct (decide (User.email u = email)) as [<-|Hne]; [done|].
  by destruct (findUser email us) as [[i v]|].
Qed.

Lemma findUser_upsertUser (email : string) (tokens : Tokens)
    (us : list User.t) :
  snd <$> findUser email (upsertUser email tokens us)
  = Some {| User.email := email; User.tokens := Some tokens |}.
Proof.
  induction us as [|u us IH].
  - unfold upsertUser, findUser. simpl. by case_decide.
  - rewrite upsertUser_cons.
    destruct (decide (User.email u = email)) as [He|Hne].
    + rewrite findUser_cons. simpl. by rewrite decide_True.
    + rewrite findUser_cons, decide_False by done.
      rewrite <- IH. by destruct (findUser email (upsertUser email tokens us))
        as [[i v]|].
Qed.

Lemma findUser_upsertUser_ne (email other : string) (tokens : Tokens)
    (us : list User.t) :
  other ≠ email →
  findUser other (upsertUser email tokens us) = findUser other us.
Proof.
  intros Hne. induction us as [|u us IH].
  - unfold upsertUser, findUser. simpl. by case_decide.
  - rewrite upsertUser_cons.
    destruct (decide (User.email u = email)) as [He|Hu].
    + rewrite !findUser_cons. simpl.
      rewrite !decide_False by congruence. done.
    + rewrite !findUser_cons. by rewrite IH.
Qed.

(** X1. Whatever the store holds (duplicates included), after
    [saveUser(email, tokens)] a [getUser(email)] finds a record of that
    e-mail with exactly the new tokens, and [getUser] of any other e-mail
    finds what it found before. *)
Theorem getUser_after_saveUser (email : string) (tokens : Tokens)
    (w : World) :
  ∃ w',
    saveUser email tokens w = (Returned tt, w')
    ∧ getUser email w'
      = (Returned (Some {| User.email := email; User.tokens := Some tokens |}),
         w')
    ∧ ∀ other, other ≠ email →
        fst (getUser other w') = fst (getUser other w).
Proof.
  eexists. split; [reflexivity|]. split.
  - unfold getUser, mbind, M_bind, mret, M_ret, getUsers. simpl.
    by rewrite findUser_upsertUser.
  - intros other Hne.
    unfold getUser, mbind, M_bind, mret, M_ret, getUsers. simpl.
    by rewrite findUser_upsertUser_ne.
Qed.

Lemma upsertUser_emails (email : string) (tokens : Tokens)
    (us : list User.t) :
  User.email <$> upsertUser email tokens us
  = if decide (email ∈ User.email <$> us) then User.email <$> us
    else (User.email <$> us) ++ [email].
Proof.
  induction us as [|u us IH].
  - unfold upsertUser. simpl. done.
  - rewrite upsertUser_cons.
    destruct (decide (User.email u = email)) as [He|Hne].
    + rewrite decide_True; [by rewrite fmap_cons, <- He|].
      rewrite fmap_cons, He. apply elem_of_cons. by left.
    + rewrite !fmap_cons, IH.
      destruct (decide (email ∈ User.email <$> us)) as [Hin|Hnin].
      * rewrite decide_True; [done|]. apply elem_of_cons. by right.
      * rewrite decide_False; [done|].
        intros [?|?]%elem_of_cons; congruence.
Qed.

(** X2. The last [saveUser] for an e-mail wins: saving [t1] and then [t2]
    leaves the store that saving [t2] alone leaves (so saving the same
    tokens twice is saving them once); and a save grows the store by one
    record when the e-mail is new and by none when it is known. *)
Theorem saveUser_last_write_wins (email : string) (t1 t2 : Tokens)
    (w : World) :
  snd (saveUser email t2 (snd (saveUser email t1 w)))
  = snd (saveUser email t2 w)
  ∧ length (users (snd (saveUser email t1 w)))
    = (length (users w)
       + if decide (email ∈ User.email <$> users w) then 0 else 1)%nat.
Proof.
  unfold saveUser, mbind, M_bind, getUsers, setUsers, withUsers. simpl.
  split.
  - f_equal. induction (users w) as [|u us IH].
    + unfold upsertUser at 2. simpl. rewrite upsertUser_cons. simpl.
      by rewrite decide_True.
    + rewrite !upsertUser_cons.
      destruct (decide (User.email u = email)) as [He|Hne].
      * rewrite upsertUser_cons. simpl. by rewrite decide_True.
      * rewrite upsertUser_cons, decide_False by done. by rewrite IH.
  - rewrite <- (length_fmap User.email), upsertUser_emails.
    destruct (decide (email ∈ User.email <$> users w)).
    + rewrite length_fmap. lia.
    + rewrite length_app, length_fmap. simpl. lia.
Qed.

(** ** Normalization: durations, shape of the output, composition *)

(** X3. For two timestamps that parse, [durationMinutes] is a number: it
    is negative exactly when the end precedes the start by more than 30
    seconds (the code does not clamp it), zero exactly when the difference
    lies in [-30 s, +30 s), never negative when the end is not before the
    start, and the exact number of minutes when the difference is a whole
    number of minutes. *)
Theorem durationOf_sign (Date_parse : string → option Z)
    (start end_ : string) (a b : Z) :
  Date_parse start = Some a →
  Date_parse end_ = Some b →
  ∃ m,
    durationOf Date_parse start end_ = Some m
    ∧ (m < 0 ↔ b - a < -30000)
    ∧ (m = 0 ↔ -30000 ≤ b - a < 30000)
    ∧ (a ≤ b → 0 ≤ m)
    ∧ (∀ k, b - a = 60000 * k → m = k).
Proof.
  intros Ha Hb. unfold durationOf. rewrite Ha, Hb.
  eexists. split; [reflexivity|].
  pose proof (Math_round_div_spec (b - a) (1000 * 60) ltac:(lia)) as Hr.
  set (m := Math_round_div (b - a) (1000 * 60)) in *.
  repeat split; intros; lia.
Qed.

Lemma durationOf_sign_witness :
  ∃ m,
    durationOf demoDate "2025-07-25T16:00:00Z" "2025-07-25T15:00:00Z" = Some m
    ∧ (m < 0 ↔ 1753455600000 - 1753459200000 < -30000).
Proof.
  destruct (durationOf_sign demoDate "2025-07-25T16:00:00Z"
              "2025-07-25T15:00:00Z" 1753459200000 1753455600000
              eq_refl eq_refl) as (m & Hm & Hneg & _).
  exists m. split; [exact Hm | exact Hneg].
Defined.

Lemma or_default_nonempty (a : option string) (d : string) :
  d ≠ "" → or_default a d ≠ "".
Proof.
  intros Hd. unfold or_default, or_else. destruct (truthy a) eqn:E; [|done].
  apply truthy_true in E as (s & -> & Hs). done.
Qed.

Lemma or_else_nonempty (a b : option string) (s : string) :
  truthy (or_else a b) = true → or_else a b = Some s → s ≠ "".
Proof.
  intros Ht Hs. rewrite Hs in Ht.
  by apply truthy_true in Ht as (s' & [= <-] & ?).
Qed.

Lemma toProcessed_fields (Date_parse : string → option Z) (e : Raw.event)
    (p : Event.t) :
  keep e → toProcessed Date_parse e = Some p →
  Event.id p = Raw.id e ∧ Raw.status e ≠ Some "cancelled"
  ∧ Event.title p ≠ "" ∧ Event.start p ≠ "" ∧ Event.end_ p ≠ "".
Proof.
  unfold keep, toProcessed. rewrite andb_True, negb_True, bool_decide_spec.
  intros [Hst H].
  destruct (Raw.start e) as [ts|]; [|done].
  destruct (Raw.end_ e) as [te|]; [|done].
  apply andb_True in H as [Hs He]. apply Is_true_true in Hs, He. simpl.
  destruct (or_else (Raw.dateTime ts) (Raw.date ts)) as [s|] eqn:Es; [|done].
  destruct (or_else (Raw.dateTime te) (Raw.date te)) as [t|] eqn:Et; [|done].
  simpl. intros [= <-]. simpl.
  split; [done|]. split; [done|]. split; [by apply or_default_nonempty|].
  split; [by eapply or_else_nonempty; [|exact Es]; rewrite Es
         |by eapply or_else_nonempty; [|exact Et]; rewrite Et].
Qed.

(** X4. Every event that normalization outputs has a non-empty title, a
    non-empty start and a non-empty end, and carries the [id] of an event
    the provider listed and did not mark cancelled. *)
Theorem processed_events_well_formed (Date_parse : string → option Z)
    (items : list Raw.event) :
  ∃ out,
    processEvents Date_parse items = Some out
    ∧ Forall (λ p, Event.title p ≠ "" ∧ Event.start p ≠ ""
                   ∧ Event.end_ p ≠ ""
                   ∧ ∃ e, e ∈ items ∧ Event.id p = Raw.id e
                          ∧ Raw.status e ≠ Some "cancelled") out.
Proof.
  destruct (processEvents_succeeds Date_parse items) as (out & Hout).
  exists out. split; [done|].
  unfold processEvents in Hout. apply mapM_Some_1 in Hout.
  apply Forall_forall. intros p Hp.
  apply list_elem_of_lookup in Hp as (i & Hi).
  destruct (Forall2_lookup_r _ _ _ _ _ Hout Hi) as (e & He & Hep).
  apply list_elem_of_lookup_2, list_elem_of_filter in He as [Hk He].
  destruct (toProcessed_fields Date_parse e p Hk Hep)
    as (Hid & Hst & Ht & Hs & Hen).
  repeat split; try done. by exists e.
Qed.

(** X5. Normalization treats the listed events one by one: the output for
    a concatenation of two lists is the concatenation of the outputs (an
    event's normal form never depends on the other events), and the output
    is never longer than the input. *)
Theorem processEvents_app (Date_parse : string → option Z)
    (a b : list Raw.event) :
  ∃ xa xb,
    processEvents Date_parse a = Some xa
    ∧ processEvents Date_parse b = Some xb
    ∧ processEvents Date_parse (a ++ b) = Some (xa ++ xb)
    ∧ (length xa ≤ length a)%nat.
Proof.
  destruct (processEvents_succeeds Date_parse a) as (xa & Ha).
  destruct (processEvents_succeeds Date_parse b) as (xb & Hb).
  exists xa, xb. split; [done|]. split; [done|].
  unfold processEvents in *. split.
  - rewrite filter_app. apply mapM_Some_2, Forall2_app; by apply mapM_Some_1.
  - apply mapM_Some_1, Forall2_length in Ha. rewrite <- Ha.
    apply length_filter.
Qed.

(** ** Summary: independence of the order *)

Lemma js_add_swap (acc x y : option Z) :
  js_add (js_add acc x) y = js_add (js_add acc y) x.
Proof.
  destruct acc as [a|], x as [x|], y as [y|]; simpl; try done.
  f_equal. lia.
Qed.

Lemma fold_minutes_Permutation (evs evs' : list Event.t) :
  evs ≡ₚ evs' →
  ∀ acc,
    fold_left (λ sum e, js_add sum (Event.durationMinutes e)) evs acc
    = fold_left (λ sum e, js_add sum (Event.durationMinutes e)) evs' acc.
Proof.
  induction 1 as [|e l l' _ IH|e e' l|l l' l'' _ IH1 _ IH2]; intros acc; simpl.
  - done.
  - apply IH.
  - by rewrite js_add_swap.
  - by rewrite IH1.
Qed.

(** X6. [totalEvents] and [totalHours] depend on the events only, not on
    their order: listing the same events in another order gives the same
    totals (only [firstEventStart] and [lastEventEnd] follow the order). *)
Theorem summarize_totals_Permutation (evs evs' : list Event.t) :
  evs ≡ₚ evs' →
  Summary.totalEvents (summarize evs) = Summary.totalEvents (summarize evs')
  ∧ Summary.totalHours (summarize evs) = Summary.totalHours (summarize evs').
Proof.
  intros Hp. pose proof (Permutation_length Hp) as Hl.
  unfold summarize. rewrite <- Hl.
  case_bool_decide; simpl; [done|].
  split; [done|]. by rewrite (fold_minutes_Permutation evs evs' Hp).
Qed.

Lemma summarize_totals_Permutation_witness :
  Summary.totalEvents (summarize demoEvents)
  = Summary.totalEvents (summarize (reverse demoEvents))
  ∧ Summary.totalHours (summarize demoEvents)
    = Summary.totalHours (summarize (reverse demoEvents)).
Proof.
  apply (summarize_totals_Permutation demoEvents (reverse demoEvents)).
  symmetry. apply reverse_Permutation.
Defined.

(** ** Read requests: what they can and cannot change *)

(** The outcomes of a read request: rejected with the state untouched; or
    authenticated and then served from the cache, or answered after one
    provider call without a cache write, or answered 200 after one provider
    call with the requester's entry rewritten. *)
Lemma readEndpoint_outcome (Date_parse : string → option Z) (P : Provider)
    (ep : ReadEndpoint) (now : Z) (req : Request) (w : World) :
  ∃ r w',
    readEndpoint Date_parse P ep now req w = (Returned r, w')
    ∧ ((w' = w ∧ (status r = 400%nat ∨ status r = 401%nat))
       ∨ ∃ email t,
           authenticates req w email t
           ∧ ((w' = withCredentials t w ∧ status r = 200%nat)
              ∨ w' = logCall CallEventsList (withCredentials t w)
              ∨ ∃ e,
                  ep ≠ EventById ∧ status r = 200%nat
                  ∧ expiry e = now + CACHE_TTL_MS
                  ∧ w' = withCache (<[email := e]> (cache w))
                           (logCall CallEventsList (withCredentials t w)))).
Proof.
  destruct (nonempty (header_X_User_Email req)) as [email|] eqn:Hh.
  - destruct (storedTokens w email) as [t|] eqn:Hs.
    + assert (authenticates req w email t) as Ha by done.
      destruct (events_list P (Some t)) as [items|message] eqn:Hp;
        destruct ep; simpl.
      * destruct (cachedEvents (cache w) email now) as [evs|] eqn:Hc.
        -- erewrite getEvents_hit by done. do 2 eexists. split; [done|].
           right. exists email, t. split; [done|]. by left.
        -- destruct (getEvents_fetched Date_parse P now req w email t items
                       Ha Hc Hp) as (evs & _ & ->).
           do 2 eexists. split; [done|]. right. exists email, t.
           split; [done|]. right. right. eexists. by repeat split.
      * destruct (cachedSummary (cache w) email now) as [s|] eqn:Hc.
        -- erewrite getEventsSummary_hit by done. do 2 eexists.
           split; [done|]. right. exists email, t. split; [done|]. by left.
        -- destruct (getEventsSummary_fetched Date_parse P now req w email t
                       items Ha Hc Hp) as (evs & _ & ->).
           do 2 eexists. split; [done|]. right. exists email, t.
           split; [done|]. right. right. eexists. by repeat split.
      * destruct (getEventById_fetched Date_parse P req w email t items Ha Hp)
          as (evs & _ & ->).
        do 2 eexists. split; [done|]. right. exists email, t.
        split; [done|]. right. by left.
      * destruct (cachedEvents (cache w) email now) as [evs|] eqn:Hc.
        -- erewrite getEvents_hit by done. do 2 eexists. split; [done|].
           right. exists email, t. split; [done|]. by left.
        -- erewrite getEvents_failed by done. do 2 eexists. split; [done|].
           right. exists email, t. split; [done|]. right. by left.
      * destruct (cachedSummary (cache w) email now) as [s|] eqn:Hc.
        -- erewrite getEventsSummary_hit by done. do 2 eexists.
           split; [done|]. right. exists email, t. split; [done|]. by left.
        -- erewrite getEventsSummary_failed by done. do 2 eexists.
           split; [done|]. right. exists email, t. split; [done|].
           right. by left.
      * erewrite getEventById_failed by done. do 2 eexists. split; [done|].
        right. exists email, t. split; [done|]. right. by left.
    + do 2 eexists. split.
      * destruct ep; simpl; by eapply ensureAuthenticated_unknown.
      * left. split; [done|]. by right.
  - do 2 eexists. split.
    + destruct ep; simpl; by eapply ensureAuthenticated_missing.
    + left. split; [done|]. by left.
Qed.

(** X7. A read request, whatever it is answered, never changes the user
    store, makes at most one provider call and only to the calendar
    listing, and leaves the cache entry of every e-mail other than the one
    in its header as it was. *)
Theorem read_request_isolation (Date_parse : string → option Z)
    (P : Provider) (ep : ReadEndpoint) (now : Z) (req : Request) (w : World) :
  ∃ r w',
    readEndpoint Date_parse P ep now req w = (Returned r, w')
    ∧ users w' = users w
    ∧ (calls w' = calls w ∨ calls w' = calls w ++ [CallEventsList])
    ∧ ∀ other,
        nonempty (header_X_User_Email req) ≠ Some other →
        cache w' !! other = cache w !! other.
Proof.
  destruct (readEndpoint_outcome Date_parse P ep now req w)
    as (r & w' & Hrun & H).
  exists r, w'. split; [done|].
  destruct H as [[-> _]|(email & t & [Hh _] & H)].
  - split; [done|]. split; [by left|done].
  - destruct H as [[-> _]|[->|(e & _ & _ & _ & ->)]]; simpl.
    + split; [done|]. split; [by left|done].
    + split; [done|]. split; [by right|done].
    + split; [done|]. split; [by right|].
      intros other Ho. rewrite lookup_insert_ne; [done|]. congruence.
Qed.

(** X8. The cache is written only by a successful fetch on [GET /events]
    or [GET /events/summary]: after any read request the cache is exactly
    what it was, unless the provider was called and the answer is 200, in
    which case the only change is the requester's entry, whose expiry is
    the clock reading plus 60000.  In particular a request served from the
    cache does not extend the expiry. *)
Theorem cache_written_only_by_fetch (Date_parse : string → option Z)
    (P : Provider) (ep : ReadEndpoint) (now : Z) (req : Request) (w : World) :
  ∃ r w',
    readEndpoint Date_parse P ep now req w = (Returned r, w')
    ∧ (cache w' = cache w
       ∨ (ep ≠ EventById ∧ status r = 200%nat
          ∧ calls w' = calls w ++ [CallEventsList]
          ∧ ∃ email e,
              nonempty (header_X_User_Email req) = Some email
              ∧ cache w' = <[email := e]> (cache w)
              ∧ expiry e = now + 60 * 1000)).
Proof.
  destruct (readEndpoint_outcome Date_parse P ep now req w)
    as (r & w' & Hrun & H).
  exists r, w'. split; [done|].
  destruct H as [[-> _]|(email & t & [Hh _] & H)]; [by left|].
  destruct H as [[-> _]|[->|(e & Hep & Hst & Hex & ->)]];
    [by left | by left |].
  right. do 3 (split; [done|]). by exists email, e.
Qed.

(** X9. The answer to a read request and what it leaves in the store and
    the cache depend only on the store and the cache: the credentials an
    earlier request left on the shared OAuth client, and the history of
    provider calls, play no part. *)
Theorem read_ignores_installed_credentials (Date_parse : string → option Z)
    (P : Provider) (ep : ReadEndpoint) (now : Z) (req : Request)
    (w1 w2 : World) :
  users w1 = users w2 →
  cache w1 = cache w2 →
  ∃ r w1' w2',
    readEndpoint Date_parse P ep now req w1 = (Returned r, w1')
    ∧ readEndpoint Date_parse P ep now req w2 = (Returned r, w2')
    ∧ users w1' = users w2'
    ∧ cache w1' = cache w2'.
Proof.
  intros Hu Hc.
  destruct (nonempty (header_X_User_Email req)) as [email|] eqn:Hh.
  - destruct (storedTokens w1 email) as [t|] eqn:Hs.
    + assert (authenticates req w1 email t) as Ha1 by done.
      assert (authenticates req w2 email t) as Ha2
        by (by eapply authenticates_users; [|exact Ha1]).
      destruct (events_list P (Some t)) as [items|message] eqn:Hp;
        destruct ep; simpl.
      * destruct (cachedEvents (cache w1) email now) as [evs|] eqn:Hc1;
          pose proof Hc1 as Hc2; rewrite Hc in Hc2.
        -- erewrite !getEvents_hit by done. by do 3 eexists.
        -- destruct (getEvents_fetched Date_parse P now req w1 email t items
                       Ha1 Hc1 Hp) as (evs & Hevs & ->).
           destruct (getEvents_fetched Date_parse P now req w2 email t items
                       Ha2 Hc2 Hp) as (evs' & Hevs' & ->).
           simplify_eq. do 3 eexists. do 2 (split; [done|]). simpl.
           split; [done|]. by rewrite Hc.
      * destruct (cachedSummary (cache w1) email now) as [s|] eqn:Hc1;
          pose proof Hc1 as Hc2; rewrite Hc in Hc2.
        -- erewrite !getEventsSummary_hit by done. by do 3 eexists.
        -- destruct (getEventsSummary_fetched Date_parse P now req w1 email t
                       items Ha1 Hc1 Hp) as (evs & Hevs & ->).
           destruct (getEventsSummary_fetched Date_parse P now req w2 email t
                       items Ha2 Hc2 Hp) as (evs' & Hevs' & ->).
           simplify_eq. do 3 eexists. do 2 (split; [done|]). simpl.
           split; [done|]. by rewrite Hc.
      * destruct (getEventById_fetched Date_parse P req w1 email t items
                    Ha1 Hp) as (evs & Hevs & ->).
        destruct (getEventById_fetched Date_parse P req w2 email t items
                    Ha2 Hp) as (evs' & Hevs' & ->).
        simplify_eq. by do 3 eexists.
      * destruct (cachedEvents (cache w1) email now) as [evs|] eqn:Hc1;
          pose proof Hc1 as Hc2; rewrite Hc in Hc2.
        -- erewrite !getEvents_hit by done. by do 3 eexists.
        -- erewrite !getEvents_failed by done. by do 3 eexists.
      * destruct (cachedSummary (cache w1) email now) as [s|] eqn:Hc1;
          pose proof Hc1 as Hc2; rewrite Hc in Hc2.
        -- erewrite !getEventsSummary_hit by done. by do 3 eexists.
        -- erewrite !getEventsSummary_failed by done. by do 3 eexists.
      * erewrite !getEventById_failed by done. by do 3 eexists.
    + assert (storedTokens w2 email = None) as Hs2
        by (unfold storedTokens in *; by rewrite <- Hu).
      do 3 eexists. split; [|split].
      * destruct ep; simpl; by eapply ensureAuthenticated_unknown.
      * destruct ep; simpl; by eapply ensureAuthenticated_unknown.
      * done.
  - do 3 eexists. split; [|split].
    + destruct ep; simpl; by eapply ensureAuthenticated_missing.
    + destruct ep; simpl; by eapply ensureAuthenticated_missing.
    + done.
Qed.

Lemma read_ignores_installed_credentials_witness :
  ∃ r w1' w2',
    readEndpoint demoDate (listing demoItems) Events 0 annRequest demoWorld
    = (Returned r, w1')
    ∧ readEndpoint demoDate (listing demoItems) Events 0 annRequest
        (logCall CallUserinfo
           (withCredentials
              {| id_token := None; access_token := Some "someone-else";
                 refresh_token := None |} demoWorld))
      = (Returned r, w2')
    ∧ users w1' = users w2'
    ∧ cache w1' = cache w2'.
Proof.
  exact (read_ignores_installed_credentials demoDate (listing demoItems)
           Events 0 annRequest demoWorld
           (logCall CallUserinfo
              (withCredentials
                 {| id_token := None; access_token := Some "someone-else";
                    refresh_token := None |} demoWorld))
           eq_refl eq_refl).
Defined.

(** X10. A [GET /events] request that misses the cache and succeeds writes
    the new list and the expiry [now + 60000] into the user's entry and
    keeps the entry's [summary] field.  Hence, if the entry held a summary
    before, expired or not, a [GET /events/summary] request earlier than 60
    seconds after that request is answered with that old summary and no
    provider call. *)
Theorem events_miss_keeps_summary (Date_parse : string → option Z)
    (P1 P2 : Provider) (now : Z) (req : Request) (w : World) (email : string)
    (t : Tokens) (r : Response) (w1 : World) :
  authenticates req w email t →
  cachedEvents (cache w) email now = None →
  getEvents Date_parse P1 now req w = (Returned r, w1) →
  status r = 200%nat →
  (∃ evs, body r = JsonEvents evs
          ∧ cache w1 !! email
            = Some {| events := Some evs;
                      summary := summary (entryOrEmpty (cache w) email);
                      expiry := now + 60 * 1000 |})
  ∧ (∀ e old,
       cache w !! email = Some e → summary e = Some old →
       ∀ later, later < now + 60 * 1000 →
         ∃ w2, getEventsSummary Date_parse P2 later req w1
               = (Returned {| status := 200; body := JsonSummary old |}, w2)
               ∧ calls w2 = calls w1).
Proof.
  intros Ha Hc Hrun Hst.
  destruct (events_list P1 (Some t)) as [items|message] eqn:Hp.
  - destruct (getEvents_fetched Date_parse P1 now req w email t items
                Ha Hc Hp) as (evs & _ & Hrun').
    rewrite Hrun' in Hrun. injection Hrun as <- <-. simpl. split.
    + eexists. split; [done|]. by rewrite lookup_insert_eq.
    + intros e old He Hold later Hlater.
      refine (proj1 (summary_window Date_parse P2 req _ email t
                       {| events := Some evs;
                          summary := summary (entryOrEmpty (cache w) email);
                          expiry := now + CACHE_TTL_MS |} old _ _ _)
                later Hlater).
      * eapply authenticates_users; [|exact Ha]. done.
      * simpl. by rewrite lookup_insert_eq.
      * simpl. unfold entryOrEmpty. by rewrite He.
  - rewrite (getEvents_failed Date_parse P1 now req w email t message
               Ha Hc Hp) in Hrun.
    injection Hrun as <- <-. done.
Qed.

Lemma events_miss_keeps_summary_witness :
  let w1 := snd (getEvents demoDate (listing []) 5000 annRequest
                   staleSummaryWorld) in
  ∃ w2, getEventsSummary demoDate failing 6000 annRequest w1
        = (Returned {| status := 200;
                       body := JsonSummary (summarize demoEvents) |}, w2)
        ∧ calls w2 = calls w1.
Proof.
  intros w1.
  refine (proj2 (events_miss_keeps_summary demoDate (listing []) failing
                   5000 annRequest staleSummaryWorld "ann@example.com"
                   demoTokens {| status := 200; body := JsonEvents [] |} w1
                   _ _ _ _)
            {| events := None; summary := Some (summarize demoEvents);
               expiry := 1000 |}
            (summarize demoEvents) _ _ 6000 _).
  - split; reflexivity.
  - reflexivity.
  - reflexivity.
  - reflexivity.
  - reflexivity.
  - reflexivity.
  - reflexivity.
Defined.

(** X11. The two cached endpoints agree on a common miss: when neither
    the list nor the summary of an authenticated user is served from the
    cache and the provider answers, [GET /events/summary] returns the
    summary of exactly the list that [GET /events] returns. *)
Theorem summary_matches_events_on_miss (Date_parse : string → option Z)
    (P : Provider) (now : Z) (req : Request) (w : World) (email : string)
    (t : Tokens) (items : option (list Raw.event)) :
  authenticates req w email t →
  cachedEvents (cache w) email now = None →
  cachedSummary (cache w) email now = None →
  events_list P (Some t) = Returned items →
  ∃ evs w1 w2,
    getEvents Date_parse P now req w
    = (Returned {| status := 200; body := JsonEvents evs |}, w1)
    ∧ getEventsSummary Date_parse P now req w
      = (Returned {| status := 200; body := JsonSummary (summarize evs) |}, w2).
Proof.
  intros Ha Hce Hcs Hp.
  destruct (getEvents_fetched Date_parse P now req w email t items Ha Hce Hp)
    as (evs & Hevs & ->).
  destruct (getEventsSummary_fetched Date_parse P now req w email t items
              Ha Hcs Hp) as (evs' & Hevs' & ->).
  simplify_eq. by do 3 eexists.
Qed.

Lemma summary_matches_events_on_miss_witness :
  ∃ evs w1 w2,
    getEvents demoDate (listing demoItems) 0 annRequest demoWorld
    = (Returned {| status := 200; body := JsonEvents evs |}, w1)
    ∧ getEventsSummary demoDate (listing demoItems) 0 annRequest demoWorld
      = (Returned {| status := 200; body := JsonSummary (summarize evs) |}, w2).
Proof.
  exact (summary_matches_events_on_miss demoDate (listing demoItems) 0
           annRequest demoWorld "ann@example.com" demoTokens (Some demoItems)
           (conj eq_refl eq_refl) eq_refl eq_refl eq_refl).
Defined.

(** X12. [GET /events/:id] in terms of what the provider lists: when every
    listed event with the requested [id] is cancelled or lacks a start or
    end (in particular when none is listed), the answer is 404; when some
    listed event with that [id] is neither, the answer is 200 with an event
    of that [id]. *)
Theorem getEventById_by_source (Date_parse : string → option Z)
    (P : Provider) (req : Request) (w : World) (email : string) (t : Tokens)
    (items : option (list Raw.event)) :
  authenticates req w email t →
  events_list P (Some t) = Returned items →
  ∃ r w',
    getEventById Date_parse P req w = (Returned r, w')
    ∧ ((∀ e, e ∈ default [] items → Raw.id e = params_id req → excluded e) →
         r = {| status := 404; body := JsonError "Event not found" None |})
    ∧ ((∃ e, e ∈ default [] items ∧ Raw.id e = params_id req ∧ ¬ excluded e) →
         ∃ p, r = {| status := 200; body := JsonEvent p |}
              ∧ Event.id p = params_id req).
Proof.
  intros Ha Hp.
  destruct (getEventById_fetched Date_parse P req w email t items Ha Hp)
    as (evs & Hevs & ->).
  do 2 eexists. split; [done|].
  unfold processEvents in Hevs. apply mapM_Some_1 in Hevs.
  pose proof (find_first (λ e, bool_decide (Event.id e = params_id req)) evs)
    as Hf.
  destruct (List.find _ evs) as [p|]; split.
  - intros Hex. exfalso.
    destruct Hf as (pre & post & -> & Hid & _).
    apply bool_decide_eq_true in Hid.
    assert (p ∈ pre ++ p :: post) as Hin
      by (apply elem_of_app; right; apply elem_of_cons; by left).
    apply list_elem_of_lookup in Hin as (i & Hi).
    destruct (Forall2_lookup_r _ _ _ _ _ Hevs Hi) as (e & He & Hep).
    apply list_elem_of_lookup_2, list_elem_of_filter in He as [Hk He].
    destruct (toProcessed_fields Date_parse e p Hk Hep) as (Hpe & _).
    apply keep_excluded in Hk. apply Hk, Hex; [done|congruence].
  - intros _. exists p. split; [done|].
    destruct Hf as (pre & post & -> & Hid & _).
    by apply bool_decide_eq_true in Hid.
  - done.
  - intros (e & He & Hid & Hne). exfalso.
    assert (e ∈ filter (λ e, keep e) (default [] items)) as Hin.
    { apply list_elem_of_filter. split; [by apply keep_excluded|done]. }
    apply list_elem_of_lookup in Hin as (i & Hi).
    destruct (Forall2_lookup_l _ _ _ _ _ Hevs Hi) as (p & Hp' & Hep).
    assert (keep e) as Hk by by apply keep_excluded.
    destruct (toProcessed_fields Date_parse e p Hk Hep) as (Hpe & _).
    apply list_elem_of_lookup_2, Hf in Hp'.
    apply bool_decide_eq_false in Hp'. congruence.
Qed.

Lemma getEventById_by_source_witness :
  ∃ r w',
    getEventById demoDate (listing demoItems)
      (demoRequest (Some "ann@example.com") "dropped") demoWorld
    = (Returned r, w')
    ∧ r = {| status := 404; body := JsonError "Event not found" None |}.
Proof.
  destruct (getEventById_by_source demoDate (listing demoItems)
              (demoRequest (Some "ann@example.com") "dropped") demoWorld
              "ann@example.com" demoTokens (Some demoItems)
              (conj eq_refl eq_refl) eq_refl) as (r & w' & Hrun & H404 & _).
  exists r, w'. split; [exact Hrun|]. apply H404.
  intros e He Hid. simpl in He.
  repeat (apply elem_of_cons in He as [->|He]; [try discriminate Hid|]).
  - left. reflexivity.
  - apply elem_of_nil in He. destruct He.
Defined.

(** ** The OAuth callback: failures and what follows a success *)

Lemma oauth2callback_no_code (P : Provider) (req : Request) (w : World) :
  nonempty (query_code req) = None →
  oauth2callback P req w
  = (Returned {| status := 400; body := Text "No code provided" |}, w).
Proof. unfold oauth2callback. by intros ->. Qed.

Lemma oauth2callback_exchange_throws (P : Provider) (req : Request)
    (w : World) (code message : string) :
  nonempty (query_code req) = Some code →
  getToken P code = Thrown message →
  oauth2callback P req w
  = (Returned {| status := 500;
                 body := Text ("Error retrieving access token: "
                               +:+ message) |},
     logCall (CallGetToken code) w).
Proof.
  unfold oauth2callback. intros -> Ht.
  unfold mbind, M_bind, try_catch, call, send, mret, M_ret. by rewrite Ht.
Qed.

(** X13. The callback gives up before resolving an identity in two ways,
    and in both it leaves the user store, the cache and the client's
    credentials as they were: without a code (absent or empty) it answers
    400 and calls nothing; when the token exchange throws it answers 500
    with the error's message, having made that one call. *)
Theorem oauth2callback_fails_early (P : Provider) (req : Request)
    (w : World) :
  (nonempty (query_code req) = None →
     oauth2callback P req w
     = (Returned {| status := 400; body := Text "No code provided" |}, w))
  ∧ (∀ code message,
       nonempty (query_code req) = Some code →
       getToken P code = Thrown message →
       oauth2callback P req w
       = (Returned {| status := 500;
                      body := Text ("Error retrieving access token: "
                                    +:+ message) |},
          logCall (CallGetToken code) w)).
Proof.
  split.
  - apply oauth2callback_no_code.
  - intros code message. apply oauth2callback_exchange_throws.
Qed.

Lemma oauth2callback_fails_early_witness :
  oauth2callback failing
    {| header_X_User_Email := None; params_id := ""; query_code := Some "" |}
    demoWorld
  = (Returned {| status := 400; body := Text "No code provided" |}, demoWorld).
Proof.
  apply (proj1 (oauth2callback_fails_early failing
                  {| header_X_User_Email := None; params_id := "";
                     query_code := Some "" |} demoWorld)).
  reflexivity.
Defined.

(** The callback after a successful token exchange: the final state. *)
Lemma oauth2callback_run (P : Provider) (req : Request) (w : World)
    (code : string) (tokens : Tokens) :
  nonempty (query_code req) = Some code →
  getToken P code = Returned tokens →
  ∃ r w',
    oauth2callback P req w = (Returned r, w')
    ∧ credentials w' = Some tokens
    ∧ match resolvedEmail P tokens with
      | Some email =>
          status r = 200%nat
          ∧ users w' = upsertUser email tokens (users w)
          ∧ cache w' = <[email := invalidatedEntry]> (cache w)
      | None =>
          status r = 400%nat ∧ users w' = users w ∧ cache w' = cache w
      end.
Proof.
  intros Hcode Htok.
  unfold oauth2callback, resolvedEmail, viaIdToken, viaUserinfo,
    viaTokenInfo, tryEmail, saveUser, invalidateCache.
  rewrite Hcode.
  unfold mbind, M_bind, mret, M_ret, try_catch, throw, call, send,
    getUsers, setUsers, getCache, setCache, getCredentials, setCredentials.
  rewrite Htok. simpl.
  repeat
    (simpl;
     repeat match goal with
            | H : ?l = _ |- context [?l] => rewrite H; simpl
            end;
     match goal with
     | |- context [nonempty (id_token tokens)] =>
         destruct (nonempty (id_token tokens)) as [idt|] eqn:?
     | |- context [verifyIdToken P ?i] =>
         destruct (verifyIdToken P i) as [e1|] eqn:?
     | |- context [nonempty (access_token tokens)] =>
         destruct (nonempty (access_token tokens)) as [at_|] eqn:?
     | |- context [userinfo_get P ?c] =>
         destruct (userinfo_get P c) as [e2|] eqn:?
     | |- context [getTokenInfo P ?a] =>
         destruct (getTokenInfo P a) as [e3|] eqn:?
     | |- context [nonempty ?e] => destruct (nonempty e) eqn:?
     end);
    simpl;
    repeat match goal with
           | H : ?l = _ |- context [?l] => rewrite H; simpl
           end;
    do 2 eexists; (split; [reflexivity|]); simpl; done.
Qed.

Lemma answered_nonempty (a : Outcome (option string)) (email : string) :
  answered a = Some email → email ≠ "".
Proof. destruct a; simpl; [|done]. by intros [_ ?]%nonempty_Some. Qed.

Lemma resolvedEmail_nonempty (P : Provider) (tokens : Tokens)
    (email : string) :
  resolvedEmail P tokens = Some email → email ≠ "".
Proof.
  unfold resolvedEmail, viaIdToken, viaUserinfo, viaTokenInfo.
  destruct (nonempty (id_token tokens)) as [idt|]; simpl;
    [destruct (answered (verifyIdToken P idt)) eqn:E1;
       [intros [= <-]; by eapply answered_nonempty|]|];
    (destruct (nonempty (access_token tokens)) as [at_|]; simpl; [|done];
     destruct (answered (userinfo_get P (Some tokens))) eqn:E2;
       [intros [= <-]; by eapply answered_nonempty|];
     apply answered_nonempty).
Qed.

(** X14. After a callback that resolves an e-mail, that user is
    authenticated with the new bundle: the callback answers 200, and the
    next read request carrying the e-mail in its header, on any endpoint
    and at any clock reading, is not rejected and not served from the
    cache; it calls the provider exactly once, with the new tokens
    installed on the client. *)
Theorem read_after_callback (Date_parse : string → option Z)
    (P P2 : Provider) (req : Request) (w : World) (code : string)
    (tokens : Tokens) (email : string) (ep : ReadEndpoint) (now : Z)
    (req2 : Request) :
  nonempty (query_code req) = Some code →
  getToken P code = Returned tokens →
  resolvedEmail P tokens = Some email →
  header_X_User_Email req2 = Some email →
  ∃ r1 w1 r2 w2,
    oauth2callback P req w = (Returned r1, w1)
    ∧ status r1 = 200%nat
    ∧ storedTokens w1 email = Some tokens
    ∧ readEndpoint Date_parse P2 ep now req2 w1 = (Returned r2, w2)
    ∧ calls w2 = calls w1 ++ [CallEventsList]
    ∧ credentials w2 = Some tokens.
Proof.
  intros Hcode Htok Hres Hh.
  destruct (oauth2callback_run P req w code tokens Hcode Htok)
    as (r1 & w1 & Hrun & _ & H).
  rewrite Hres in H. destruct H as (Hst & Hu & Hc).
  assert (storedTokens w1 email = Some tokens) as Hs.
  { unfold storedTokens. by rewrite Hu, findUser_upsertUser. }
  assert (authenticates req2 w1 email tokens) as Ha.
  { split; [|done]. apply nonempty_header; [done|].
    by eapply resolvedEmail_nonempty. }
  assert (∃ r2 w2,
            readEndpoint Date_parse P2 ep now req2 w1 = (Returned r2, w2)
            ∧ w2 = logCall CallEventsList (withCredentials tokens w1)
              ∨ readEndpoint Date_parse P2 ep now req2 w1 = (Returned r2, w2)
                ∧ ∃ c, w2 = withCache c
                              (logCall CallEventsList
                                 (withCredentials tokens w1)))
    as (r2 & w2 & H).
  { assert (cachedEvents (cache w1) email now = None) as Hce.
    { apply cachedEvents_None. intros e. rewrite Hc, lookup_insert_eq.
      intros [= <-]. by left. }
    assert (cachedSummary (cache w1) email now = None) as Hcs.
    { apply cachedSummary_None. intros e. rewrite Hc, lookup_insert_eq.
      intros [= <-]. by left. }
    destruct (events_list P2 (Some tokens)) as [items|message] eqn:Hp;
      destruct ep; simpl.
    - destruct (getEvents_fetched Date_parse P2 now req2 w1 email tokens
                  items Ha Hce Hp) as (evs & _ & ->).
      do 2 eexists. right. split; [done|]. by eexists.
    - destruct (getEventsSummary_fetched Date_parse P2 now req2 w1 email
                  tokens items Ha Hcs Hp) as (evs & _ & ->).
      do 2 eexists. right. split; [done|]. by eexists.
    - destruct (getEventById_fetched Date_parse P2 req2 w1 email tokens
                  items Ha Hp) as (evs & _ & ->).
      do 2 eexists. by left.
    - erewrite getEvents_failed by done. do 2 eexists. by left.
    - erewrite getEventsSummary_failed by done. do 2 eexists. by left.
    - erewrite getEventById_failed by done. do 2 eexists. by left. }
  exists r1, w1, r2, w2. do 3 (split; [done|]).
  destruct H as [[Hrun2 ->]|[Hrun2 [c ->]]]; by split.
Qed.

Lemma read_after_callback_witness :
  ∃ r1 w1 r2 w2,
    oauth2callback (listing []) callbackRequest freshWorld = (Returned r1, w1)
    ∧ status r1 = 200%nat
    ∧ storedTokens w1 "ann@example.com" = Some demoTokens
    ∧ readEndpoint demoDate (listing demoItems) Events 0 annRequest w1
      = (Returned r2, w2)
    ∧ calls w2 = calls w1 ++ [CallEventsList]
    ∧ credentials w2 = Some demoTokens.
Proof.
  exact (read_after_callback demoDate (listing []) (listing demoItems)
           callbackRequest freshWorld "4/code" demoTokens "ann@example.com"
           Events 0 annRequest eq_refl eq_refl eq_refl eq_refl).
Defined.

(** ** An invariant of the served states *)

Lemma storedTokens_elem (w : World) (email : string) (t : Tokens) :
  storedTokens w email = Some t → email ∈ User.email <$> users w.
Proof.
  unfold storedTokens.
  destruct (findUser email (users w)) as [[i u]|] eqn:Ef; [|done].
  intros _. apply findUser_Some in Ef as (Hi & <- & _).
  apply list_elem_of_fmap. exists u. split; [done|].
  by eapply list_elem_of_lookup_2.
Qed.

Lemma upsertUser_Forall (Q : User.t → Prop) (email : string)
    (tokens : Tokens) (us : list User.t) :
  Q {| User.email := email; User.tokens := Some tokens |} →
  Forall Q us → Forall Q (upsertUser email tokens us).
Proof.
  intros Hnew. induction 1 as [|u us Hu Hus IH].
  - unfold upsertUser. simpl. by constructor.
  - rewrite upsertUser_cons. case_decide; by constructor.
Qed.

Lemma upsertUser_NoDup (email : string) (tokens : Tokens)
    (us : list User.t) :
  NoDup (User.email <$> us) →
  NoDup (User.email <$> upsertUser email tokens us).
Proof.
  intros Hnd. rewrite upsertUser_emails. case_decide; [done|].
  apply NoDup_app. split; [done|]. split; [|apply NoDup_singleton].
  intros x Hx Hx'. apply list_elem_of_singleton in Hx'. by subst.
Qed.

Lemma upsertUser_emails_mono (email other : string) (tokens : Tokens)
    (us : list User.t) :
  other = email ∨ other ∈ User.email <$> us →
  other ∈ User.email <$> upsertUser email tokens us.
Proof.
  rewrite upsertUser_emails. case_decide; rewrite ?elem_of_app.
  - by intros [->|?].
  - rewrite list_elem_of_singleton. tauto.
Qed.

Lemma readEndpoint_keeps_invariant (Date_parse : string → option Z)
    (P : Provider) (ep : ReadEndpoint) (now : Z) (req : Request) (w : World) :
  storeInvariant w →
  storeInvariant (snd (readEndpoint Date_parse P ep now req w)).
Proof.
  intros (Hnd & Hall & Hdom).
  destruct (readEndpoint_outcome Date_parse P ep now req w)
    as (r & w' & -> & H). simpl.
  destruct H as [[-> _]|(email & t & [_ Hs] & H)]; [done|].
  destruct H as [[-> _]|[->|(e & _ & _ & _ & ->)]]; [done..|].
  split; [done|]. split; [done|]. simpl. intros other.
  destruct (decide (email = other)) as [<-|Hne].
  - intros _. by eapply storedTokens_elem.
  - rewrite lookup_insert_ne by done. apply Hdom.
Qed.

Lemma oauth2callback_keeps_invariant (P : Provider) (req : Request)
    (w : World) :
  storeInvariant w → storeInvariant (snd (oauth2callback P req w)).
Proof.
  intros (Hnd & Hall & Hdom).
  destruct (nonempty (query_code req)) as [code|] eqn:Hcode.
  - destruct (getToken P code) as [tokens|message] eqn:Htok.
    + destruct (oauth2callback_run P req w code tokens Hcode Htok)
        as (r & w' & -> & _ & H). simpl.
      destruct (resolvedEmail P tokens) as [email|] eqn:Hres.
      * destruct H as (_ & Hu & Hc). unfold storeInvariant.
        rewrite Hu, Hc. split; [by apply upsertUser_NoDup|]. split.
        -- apply upsertUser_Forall; [|done]. simpl.
           split; [by eapply resolvedEmail_nonempty|done].
        -- intros other Ho. apply upsertUser_emails_mono.
           destruct (decide (other = email)) as [->|Hne]; [by left|].
           right. apply Hdom. by rewrite lookup_insert_ne in Ho.
      * destruct H as (_ & Hu & Hc). unfold storeInvariant.
        by rewrite Hu, Hc.
    + by rewrite (oauth2callback_exchange_throws P req w code message
                    Hcode Htok).
  - by rewrite (oauth2callback_no_code P req w Hcode).
Qed.

(** X15. Serving requests keeps the store and the cache well formed: if
    every e-mail occurs once in the store, every record has a non-empty
    e-mail and holds tokens, and every cache entry belongs to a stored
    user, then the same holds after any sequence of read and callback
    requests, whatever the provider answers. *)
Theorem served_states_keep_invariant (Date_parse : string → option Z)
    (actions : list Action) (w : World) :
  storeInvariant w → storeInvariant (serve Date_parse w actions).
Proof.
  unfold serve. revert w. induction actions as [|a actions IH]; intros w Hw.
  - done.
  - simpl. apply IH. destruct a as [P ep now req|P req]; simpl.
    + by apply readEndpoint_keeps_invariant.
    + by apply oauth2callback_keeps_invariant.
Qed.

Lemma served_states_keep_invariant_witness :
  storeInvariant
    (serve demoDate freshWorld
       [ CallbackRequest (listing []) callbackRequest;
         ReadRequest (listing demoItems) Events 0 annRequest;
         CallbackRequest failing callbackRequest;
         ReadRequest failing EventsSummary 70000 annRequest ]).
Proof.
  apply served_states_keep_invariant.
  split; [constructor|]. split; [constructor|].
  intros email [e He]. simpl in He. rewrite lookup_empty in He.
  discriminate He.
Defined.
